(** * The redis cache client of goma-server (cache/redis)

    A shallow embedding of [cache/redis/client.go] and
    [cache/redis/fake_redis.go]:
    - the error classifier [retryErr] with its helper [isConnError];
    - the admission gate (the buffered channel [sema]) in front of the
      redigo pool, as a transition system over concurrently running
      [Get]/[Put] calls;
    - the request parser of the fake redis server. *)

From Stdlib Require Import ZArith Lia Ascii String DecimalString DecimalNat.
From stdpp Require Import base option list strings sorting gmap.

Local Open Scope string_scope.
Local Open Scope list_scope.
Local Open Scope Z_scope.

(** ** Error values

    Go's [error] is an interface; the client looks at an error value only
    through a few operations: type assertions to [syscall.Errno],
    [*os.SyscallError] and [*net.OpError], the optional [Temporary()]
    method, [Error()], and [errors.Is(err, redis.ErrNil)], which asks the
    value's own [Is] method and follows [Unwrap()].  [errval] records what
    these operations see. *)

Inductive errval : Type :=
| ErrVal (dyn : dyntype) (msg : string) (temp : option bool)
    (* [msg] is what [Error()] returns; [temp] is [None] when the dynamic
       type has no [Temporary()] method and [Some b] when it returns [b]. *)
with dyntype : Type :=
| RedisErrNil                          (* the value redis.ErrNil itself *)
| SyscallErrno (errno : Z)             (* syscall.Errno *)
| OsSyscallError (Err : option errval) (* *os.SyscallError, field Err *)
| NetOpError (Err : option errval)     (* *net.OpError, field Err *)
| OtherType (Is_ErrNil : bool) (Unwrap : option errval).
    (* any other type: what its Is(redis.ErrNil) answers ([false] without
       an Is method) and what its Unwrap() gives *)

Definition dyn_of (e : errval) : dyntype := let 'ErrVal d _ _ := e in d.
Definition Error (e : errval) : string := let 'ErrVal _ m _ := e in m.
Definition Temporary (e : errval) : option bool := let 'ErrVal _ _ t := e in t.

(** redis.ErrNil = errors.New("redigo: nil returned") *)
Definition ErrNil : errval := ErrVal RedisErrNil "redigo: nil returned" None.

(** syscall error numbers (linux) *)
Definition ECONNABORTED : Z := 103.
Definition ECONNRESET : Z := 104.

(** grpc status codes *)
Inductive Code : Type :=
| OK | Canceled | Unknown | InvalidArgument | DeadlineExceeded | NotFound
| AlreadyExists | PermissionDenied | ResourceExhausted | FailedPrecondition
| Aborted | OutOfRange | Unimplemented | Internal | Unavailable | DataLoss
| Unauthenticated.

(** The error values the client hands on: an error it received, as it is,
    or one of the two values [retryErr] builds. *)
Inductive error : Type :=
| Plain (err : errval)
| StatusError (c : Code) (desc : string)   (* status.Error(c, desc) *)
| RetriableError (Err : errval).           (* rpc.RetriableError{Err: err} *)

(** [errors.Is(err, redis.ErrNil)]: at every value of the chain it
    compares with the sentinel, asks the value's [Is] method if it has one,
    and goes on with what [Unwrap()] gives.  [syscall.Errno] has an [Is]
    method that answers true for the errors of package os only and no
    [Unwrap]; [*os.SyscallError] and [*net.OpError] have no [Is] and
    unwrap to their [Err] field. *)
Fixpoint errors_Is_ErrNil (e : errval) : bool :=
  match e with
  | ErrVal d _ _ =>
      match d with
      | RedisErrNil => true
      | SyscallErrno _ => false
      | OsSyscallError o | NetOpError o =>
          match o with
          | Some e' => errors_Is_ErrNil e'
          | None => false
          end
      | OtherType is_nil o =>
          is_nil ||
          match o with
          | Some e' => errors_Is_ErrNil e'
          | None => false
          end
      end
  end.

(** ** client.go: isConnError *)

Definition isConnError (err : option errval) : bool :=
  match err with
  | Some (ErrVal (SyscallErrno errno) _ _) =>
      (errno =? ECONNRESET) || (errno =? ECONNABORTED)
  | Some (ErrVal (OsSyscallError serr_Err) _ _) =>
      match serr_Err with
      | Some (ErrVal (SyscallErrno errno) _ _) =>
          (errno =? ECONNRESET) || (errno =? ECONNABORTED)
      | _ => false
      end
  | _ => false
  end.

(** ** client.go: retryErr *)

Definition retryErr (err : option errval) : option error :=
  match err with
  | None => None
  | Some e =>
      if errors_Is_ErrNil e then Some (StatusError NotFound (Error e))
      else
        match Temporary e with
        | Some true => Some (RetriableError e)
        | _ =>
            match dyn_of e with
            | NetOpError operr_Err =>
                if isConnError operr_Err then Some (RetriableError e)
                else Some (Plain e)
            | _ => Some (Plain e)
            end
        end
  end.

(** The three classes of the classifier's result. *)
Inductive class : Type := ClsNotFound | ClsRetriable | ClsFatal.

(** [status.Code(err)] *)
Definition status_Code (err : option error) : Code :=
  match err with
  | None => OK
  | Some (StatusError c _) => c
  | Some _ => Unknown
  end.

(** The class of a value that retryErr has returned, as the retry loop
    reads it: the wrapper rpc.RetriableError, the status NotFound, or
    anything else.  It is the class of retryErr's result, not of an error
    that did not go through retryErr; [classifier] is that. *)
Definition classify (err : error) : class :=
  match err with
  | RetriableError _ => ClsRetriable
  | StatusError NotFound _ => ClsNotFound
  | _ => ClsFatal
  end.

(** The classifier on an error value: the class of what retryErr makes
    of it. *)
Definition classifier (e : errval) : class :=
  match retryErr (Some e) with
  | Some e' => classify e'
  | None => ClsFatal
  end.

(** The spec's wording of "connection reset or aborted, unwrapping at most
    one level of syscall-error wrapping". *)
Definition is_reset_errno (e : errval) : Prop :=
  ∃ n, dyn_of e = SyscallErrno n ∧ (n = ECONNRESET ∨ n = ECONNABORTED).

Definition conn_reset_cause (cause : option errval) : Prop :=
  ∃ e, cause = Some e ∧
    (is_reset_errno e ∨
     ∃ e', dyn_of e = OsSyscallError (Some e') ∧ is_reset_errno e').

Definition reports_temporary (e : errval) : Prop := Temporary e = Some true.

Definition net_op_reset (e : errval) : Prop :=
  ∃ cause, dyn_of e = NetOpError cause ∧ conn_reset_cause cause.

(** ** client.go: Opts, Client, NewClient *)

Record Opts : Type := {
  Prefix : string;
  MaxIdleConns : Z;
  MaxActiveConns : Z
}.

Definition DefaultMaxIdleConns : Z := 50.
Definition DefaultMaxActiveConns : Z := 200.

(** The fields of redis.Pool that NewClient sets. *)
Record Pool : Type := {
  DialAddr : string;
  MaxIdle : Z;
  MaxActive : Z;
  Wait : bool
}.

(** [sema] is a channel of capacity [sema_cap]; its length is part of the
    shared state below. *)
Record Client : Type := {
  prefix : string;
  pool : Pool;
  sema_cap : Z
}.

(** [make(chan struct{}, n)] panics for a negative [n]: no client then. *)
Definition NewClient (addr : string) (opts : Opts) : option Client :=
  if MaxActiveConns opts <? 0 then None
  else Some {| prefix := Prefix opts;
               pool := {| DialAddr := addr;
                          MaxIdle := MaxIdleConns opts;
                          MaxActive := MaxActiveConns opts;
                          Wait := false |};
               sema_cap := MaxActiveConns opts |}.

(** ** Requests, responses, replies *)

Record KV : Type := { Key : string; Value : string }.
Record GetReq : Type := { GetReq_Key : string }.
Record GetResp : Type := { GetResp_Kv : KV; InMemory : bool }.
Record PutReq : Type := { PutReq_Kv : KV }.

Inductive call : Type :=
| CallGet (req : GetReq)
| CallPut (req : PutReq).

Inductive resp : Type :=
| RespGet (r : GetResp)
| RespPut.

(** What redigo's [conn.Do] gives back as [reply interface{}]. *)
Inductive reply : Type :=
| ReplyNil
| ReplyInt (n : Z)
| ReplyBulk (b : string)
| ReplyStatus (s : string)
| ReplyError (msg : string)
| ReplyArray (len : nat).

(** redigo's [redis.Bytes(reply, err)]: a bulk or a simple string gives
    its bytes, nil gives ErrNil, an error reply is returned as the error,
    and any other reply gives
    fmt.Errorf("redigo: unexpected type for Bytes, got type %T", reply). *)
Definition redis_Bytes (rep : reply) (err : option errval)
  : string * option errval :=
  match err with
  | Some e => ("", Some e)
  | None =>
      match rep with
      | ReplyBulk b => (b, None)
      | ReplyStatus s => (s, None)
      | ReplyNil => ("", Some ErrNil)
      | ReplyError msg => ("", Some (ErrVal (OtherType false None) msg None))
      | ReplyInt _ =>
          ("", Some (ErrVal (OtherType false None)
                       "redigo: unexpected type for Bytes, got type int64"
                       None))
      | ReplyArray _ =>
          ("", Some (ErrVal (OtherType false None)
                       "redigo: unexpected type for Bytes, got type []interface {}"
                       None))
      end
  end.

(** [ctx.Err()] once the context is done. *)
Inductive ctxErr : Type := CtxCanceled | CtxDeadlineExceeded.

Definition ctx_Err (ce : ctxErr) : errval :=
  match ce with
  | CtxCanceled => ErrVal (OtherType false None) "context canceled" None
  | CtxDeadlineExceeded =>
      ErrVal (OtherType false None) "context deadline exceeded" (Some true)
  end.

(** ** One Get/Put call as a sequence of steps

    A call runs through the program points below; [log] records, in
    order, what it did to the shared objects. *)

Inductive event : Type :=
| EvSemaSend                          (* c.sema <- struct{}{} *)
| EvPoolGet (err : option errval)     (* c.pool.GetContext(ctx) returned *)
| EvDo (cmd : string) (args : list string)
       (rep : reply) (err : option errval)   (* conn.Do(cmd, args...) *)
| EvSemaRecv                          (* <-c.sema *)
| EvConnClose.                        (* c.Conn.Close() *)

Definition result : Type := option resp * option error.

Inductive pc : Type :=
| AtSelect                       (* poolGetContext: at the select *)
| AtPoolGet                      (* send case taken: c.pool.GetContext(ctx) *)
| AtLeaseFailed (err : errval)   (* err != nil: about to <-c.sema *)
| AtDo                           (* Retry.Do: about to call f *)
| AtBackoff                      (* Retry.Do: f was retriable, waiting *)
| AtCloseSema (res : result)     (* deferred conn.Close(): <-c.c.sema *)
| AtCloseConn (res : result)     (* deferred conn.Close(): c.Conn.Close() *)
| Returned (res : result).

Record thread : Type := {
  req : call;
  ctx : option ctxErr;      (* None: not done; Some e: done, ctx.Err() = e *)
  at_pc : pc;
  v : string;               (* Get's [var v []byte] *)
  log : list event
}.

Definition new_thread (cl : call) : thread :=
  {| req := cl; ctx := None; at_pc := AtSelect; v := ""; log := [] |}.

(** What the surroundings decide at a step. *)
Inductive input : Type :=
| InCancel (ce : ctxErr)          (* the caller's context becomes done *)
| InSelectSend                    (* the select takes the send case *)
| InSelectDone                    (* the select takes <-ctx.Done() *)
| InPool (err : option errval)    (* what pool.GetContext returns *)
| InReply (rep : reply) (err : option errval)   (* what conn.Do returns *)
| InWake                          (* the backoff wait ends *)
| InNext.                         (* the next statement, nothing to choose *)

Inductive sema_op : Type := SemaNone | SemaSend | SemaRecv.

(** The command a call sends: ["GET", prefix+key] or
    ["SET", prefix+key, value]. *)
Definition command (c : Client) (cl : call) : string * list string :=
  match cl with
  | CallGet req => ("GET", [String.append (prefix c) (GetReq_Key req)])
  | CallPut req =>
      ("SET", [String.append (prefix c) (Key (PutReq_Kv req));
               Value (PutReq_Kv req)])
  end.

(** Get: the function passed to Retry.Do,
    [v, err = redis.Bytes(conn.Do("GET", c.prefix+in.Key)); return retryErr(err)];
    the first component is the new value of [v]. *)
Definition Get_attempt (rep : reply) (err : option errval)
  : string * option error :=
  let '(v1, err1) := redis_Bytes rep err in (v1, retryErr err1).

(** Put: the function passed to Retry.Do,
    [_, err := conn.Do("SET", c.prefix+in.Kv.Key, in.Kv.Value); return retryErr(err)]. *)
Definition Put_attempt (err : option errval) : option error := retryErr err.

Definition attempt (cl : call) (v0 : string) (rep : reply)
    (err : option errval) : string * option error :=
  match cl with
  | CallGet _ => Get_attempt rep err
  | CallPut _ => (v0, Put_attempt err)
  end.

(** Get: what it returns once Retry.Do has returned [err]. *)
Definition Get_return (req : GetReq) (v0 : string) (err : option error)
  : result :=
  match err with
  | Some e => (None, Some e)
  | None =>
      (Some (RespGet {| GetResp_Kv := {| Key := GetReq_Key req;
                                         Value := v0 |};
                        InMemory := true |}), None)
  end.

(** Put: what it returns once Retry.Do has returned [err]. *)
Definition Put_return (err : option error) : result :=
  match err with
  | Some e => (None, Some e)
  | None => (Some RespPut, None)
  end.

Definition finish (cl : call) (v0 : string) (err : option error) : result :=
  match cl with
  | CallGet req => Get_return req v0 err
  | CallPut _ => Put_return err
  end.

(** How the retry loop goes on after an attempt. *)
Inductive retry_next : Type :=
| RetryReturn (err : option error)
| RetryBackoff.

(** Modelled from the spec: rpc.Retry.Do (package rpc is not under src/),
    with MaxRetry = -1, that is unlimited attempts.  After an attempt: nil
    ends the loop with success; an error that is not retriable ends it
    with that error; a retriable one leads to the backoff wait. *)
Definition Retry_after_attempt (r : option error) : retry_next :=
  match r with
  | None => RetryReturn None
  | Some (RetriableError _) => RetryBackoff
  | Some e => RetryReturn (Some e)
  end.

(** Modelled from the spec: rpc.Retry.Do after the backoff: when the
    context is done the loop stops with the context's error, otherwise the
    operation is attempted again ([None]). *)
Definition Retry_after_backoff (cx : option ctxErr) : option (option error) :=
  match cx with
  | Some ce => Some (Some (Plain (ctx_Err ce)))
  | None => None
  end.

Definition set_pc (t : thread) (p : pc) : thread :=
  {| req := req t; ctx := ctx t; at_pc := p; v := v t; log := log t |}.

Definition emit (t : thread) (p : pc) (ev : event) : thread :=
  {| req := req t; ctx := ctx t; at_pc := p; v := v t;
     log := log t ++ [ev] |}.

(** poolGetContext: the select, the pool's GetContext, and the receive
    from [sema] when that fails. *)
Definition poolGetContext (inp : input) (t : thread)
  : option (thread * sema_op) :=
  match inp, at_pc t with
  | InSelectSend, AtSelect => Some (emit t AtPoolGet EvSemaSend, SemaSend)
  | InSelectDone, AtSelect =>
      match ctx t with
      | Some ce =>
          Some (set_pc t (Returned (None, Some (Plain (ctx_Err ce)))),
                SemaNone)
      | None => None
      end
  | InPool None, AtPoolGet => Some (emit t AtDo (EvPoolGet None), SemaNone)
  | InPool (Some e), AtPoolGet =>
      Some (emit t (AtLeaseFailed e) (EvPoolGet (Some e)), SemaNone)
  | InNext, AtLeaseFailed e =>
      Some (emit t (Returned (None, Some (Plain e))) EvSemaRecv, SemaRecv)
  | _, _ => None
  end.

(** Retry.Do around the attempt of Get or Put; when it returns, the
    result of the call is fixed and the deferred Close is next. *)
Definition Retry_Do (c : Client) (inp : input) (t : thread)
  : option (thread * sema_op) :=
  match inp, at_pc t with
  | InReply rep err, AtDo =>
      let '(cmd, args) := command c (req t) in
      let '(v1, r) := attempt (req t) (v t) rep err in
      let p := match Retry_after_attempt r with
               | RetryReturn e => AtCloseSema (finish (req t) v1 e)
               | RetryBackoff => AtBackoff
               end in
      Some ({| req := req t; ctx := ctx t; at_pc := p; v := v1;
               log := log t ++ [EvDo cmd args rep err] |}, SemaNone)
  | InWake, AtBackoff =>
      match Retry_after_backoff (ctx t) with
      | Some e => Some (set_pc t (AtCloseSema (finish (req t) (v t) e)),
                        SemaNone)
      | None => Some (set_pc t AtDo, SemaNone)
      end
  | _, _ => None
  end.

(** activeConn.Close: [<-c.c.sema], then [c.Conn.Close()]. *)
Definition activeConn_Close (inp : input) (t : thread)
  : option (thread * sema_op) :=
  match inp, at_pc t with
  | InNext, AtCloseSema res =>
      Some (emit t (AtCloseConn res) EvSemaRecv, SemaRecv)
  | InNext, AtCloseConn res =>
      Some (emit t (Returned res) EvConnClose, SemaNone)
  | _, _ => None
  end.

(** A step of a Get or Put call: poolGetContext, then Retry.Do, then the
    deferred conn.Close().  The caller's context can become done at any
    time. *)
Definition thread_step (c : Client) (inp : input) (t : thread)
  : option (thread * sema_op) :=
  match inp with
  | InCancel ce =>
      match ctx t with
      | None => Some ({| req := req t; ctx := Some ce; at_pc := at_pc t;
                         v := v t; log := log t |}, SemaNone)
      | Some _ => None
      end
  | _ =>
      match at_pc t with
      | AtSelect | AtPoolGet | AtLeaseFailed _ => poolGetContext inp t
      | AtDo | AtBackoff => Retry_Do c inp t
      | AtCloseSema _ | AtCloseConn _ => activeConn_Close inp t
      | Returned _ => None
      end
  end.

(** ** The shared state and its transitions *)

Record state : Type := {
  sema_len : nat;            (* len(c.sema) *)
  threads : list thread
}.

Definition init : state := {| sema_len := 0; threads := [] |}.

Inductive action : Type :=
| Call (cl : call)                (* a caller starts Get or Put *)
| Run (i : nat) (inp : input)     (* call number i takes a step *)
| Handoff (i j : nat).            (* i's send meets j's receive directly *)

(** Channel rules: a send goes through when the buffer has room, a
    receive when it holds something; with an empty buffer a send can also
    meet a receive directly (the only way on a channel of capacity 0). *)
Definition exec (c : Client) (st : state) (a : action) : option state :=
  match a with
  | Call cl =>
      Some {| sema_len := sema_len st;
              threads := threads st ++ [new_thread cl] |}
  | Run i inp =>
      match threads st !! i with
      | None => None
      | Some t =>
          match thread_step c inp t with
          | None => None
          | Some (t', SemaNone) =>
              Some {| sema_len := sema_len st;
                      threads := <[i:=t']> (threads st) |}
          | Some (t', SemaSend) =>
              if Z.of_nat (sema_len st) <? sema_cap c
              then Some {| sema_len := S (sema_len st);
                           threads := <[i:=t']> (threads st) |}
              else None
          | Some (t', SemaRecv) =>
              match sema_len st with
              | O => None
              | S n => Some {| sema_len := n;
                               threads := <[i:=t']> (threads st) |}
              end
          end
      end
  | Handoff i j =>
      match sema_len st, threads st !! i, threads st !! j with
      | O, Some ti, Some tj =>
          match thread_step c InSelectSend ti, thread_step c InNext tj with
          | Some (ti', SemaSend), Some (tj', SemaRecv) =>
              if decide (i = j) then None
              else Some {| sema_len := 0;
                           threads := <[j:=tj']> (<[i:=ti']> (threads st)) |}
          | _, _ => None
          end
      | _, _, _ => None
      end
  end.

Fixpoint run (c : Client) (st : state) (l : list action) : option state :=
  match l with
  | [] => Some st
  | a :: l' =>
      match exec c st a with
      | Some st' => run c st' l'
      | None => None
      end
  end.

Definition reachable (c : Client) (st : state) : Prop :=
  ∃ l, run c init l = Some st.

(** Slots a call holds: sends on [sema] it has done and not yet undone. *)
Definition count_ev (p : event → bool) (l : list event) : nat :=
  length (filter (λ ev, p ev = true) l).

Definition is_send (ev : event) : bool :=
  match ev with EvSemaSend => true | _ => false end.
Definition is_recv (ev : event) : bool :=
  match ev with EvSemaRecv => true | _ => false end.
Definition is_close (ev : event) : bool :=
  match ev with EvConnClose => true | _ => false end.
Definition is_lease (ev : event) : bool :=
  match ev with EvPoolGet None => true | _ => false end.
Definition is_pool_get (ev : event) : bool :=
  match ev with EvPoolGet _ => true | _ => false end.

Definition slots_held (t : thread) : nat :=
  (count_ev is_send (log t) - count_ev is_recv (log t))%nat.

Definition slots_in_use (st : state) : nat :=
  sum_list_with slots_held (threads st).

(** Connections a call has leased and not yet closed. *)
Definition leases_held (t : thread) : nat :=
  (count_ev is_lease (log t) - count_ev is_close (log t))%nat.

Definition leases_out (st : state) : nat :=
  sum_list_with leases_held (threads st).

(** ** fake_redis.go: the request parser of the fake server *)

Definition LF : string := String (ascii_of_nat 10) EmptyString.
Definition CRLF : string := String (ascii_of_nat 13) LF.

(** [bufio.Reader.ReadLine]: the line without its end-of-line bytes, the
    isPrefix flag, and an error; the reader moves on. *)
Class LineReader (R : Type) : Type :=
  ReadLine : R → (string * bool * option errval) * R.

(** io.EOF *)
Definition EOF : errval := ErrVal (OtherType false None) "EOF" None.

(** A reader over lines that are already split; at the end it reports
    io.EOF. *)
#[export] Instance lines_reader : LineReader (list string) :=
  λ r, match r with
       | [] => (("", false, Some EOF), [])
       | l :: r' => ((l, false, None), r')
       end.

(** The bytes of [s] before its first LF, and the bytes after that LF. *)
Fixpoint cut_line (s : string) : option (string * string) :=
  match s with
  | EmptyString => None
  | String ch s' =>
      if Ascii.eqb ch (ascii_of_nat 10) then Some (EmptyString, s')
      else match cut_line s' with
           | Some (l, rest) => Some (String ch l, rest)
           | None => None
           end
  end.

Fixpoint strip_cr (l : string) : string :=
  match l with
  | EmptyString => EmptyString
  | String ch EmptyString =>
      if Ascii.eqb ch (ascii_of_nat 13) then EmptyString else l
  | String ch l' => String ch (strip_cr l')
  end.

(** bufio's defaultBufSize, the size of the buffer that bufio.NewReader
    gives the reader. *)
Definition defaultBufSize : nat := 4096.

(** [ReadSlice] looking for LF in a buffer of [n] bytes: the bytes before
    the LF and the bytes after it, when the LF is among the first [n]
    bytes of [s]. *)
Fixpoint cut_line_within (n : nat) (s : string) : option (string * string) :=
  match n, s with
  | S n', String ch s' =>
      if Ascii.eqb ch (ascii_of_nat 10) then Some (EmptyString, s')
      else match cut_line_within n' s' with
           | Some (l, rest) => Some (String ch l, rest)
           | None => None
           end
  | _, _ => None
  end.

Fixpoint take_bytes (n : nat) (s : string) : string :=
  match n, s with
  | S n', String ch s' => String ch (take_bytes n' s')
  | _, _ => EmptyString
  end.

Fixpoint drop_bytes (n : nat) (s : string) : string :=
  match n, s with
  | S n', String _ s' => drop_bytes n' s'
  | _, _ => s
  end.

(** [line[len(line)-1] == '\r'] *)
Fixpoint ends_with_CR (l : string) : bool :=
  match l with
  | EmptyString => false
  | String ch EmptyString => Ascii.eqb ch (ascii_of_nat 13)
  | String _ l' => ends_with_CR l'
  end.

(** [bufio.Reader.ReadLine] on a reader with a buffer of [size] bytes,
    [s] being the bytes still to come on the connection, which ends with
    io.EOF after them.
    - LF among the first [size] bytes: the line before it, without a CR
      right before the LF.
    - No LF and fewer than [size] bytes left: the input ends, what is left
      is returned as a line (ReadSlice returns it with io.EOF, which
      ReadLine drops for a non-empty line).
    - No LF among [size] bytes: ReadSlice fails with ErrBufferFull and
      ReadLine returns the full buffer with isPrefix = true; when the
      buffer ends with CR, that CR is left to be read again.
    - Nothing left: io.EOF. *)
Definition bufio_ReadLine (size : nat) (s : string)
  : (string * bool * option errval) * string :=
  match s with
  | EmptyString => ((EmptyString, false, Some EOF), EmptyString)
  | _ =>
      match cut_line_within size s with
      | Some (l, rest) => ((strip_cr l, false, None), rest)
      | None =>
          if (String.length s <? size)%nat then ((s, false, None), EmptyString)
          else if ends_with_CR (take_bytes size s)
          then ((take_bytes (size - 1) s, true, None),
                drop_bytes (size - 1) s)
          else ((take_bytes size s, true, None), drop_bytes size s)
      end
  end.

(** The reader of [handle]: bufio.NewReader(conn) over the bytes of the
    connection. *)
#[export] Instance bytes_reader : LineReader string :=
  bufio_ReadLine defaultBufSize.

(** The line at the head of the bytes [s] as the protocol has it,
    whatever its length: the bytes before the first LF without a CR at
    their end, and the bytes after that LF; at the end of the input what
    is left is a line too. *)
Definition next_line (s : string) : option (string * string) :=
  match cut_line s with
  | Some (l, rest) => Some (strip_cr l, rest)
  | None =>
      match s with
      | EmptyString => None
      | _ => Some (s, EmptyString)
      end
  end.

(** Every line of [s] fits a buffer of [size] bytes with its LF: fewer
    than [size] bytes before each LF ([cur] of them seen already), and
    fewer than [size] bytes after the last LF. *)
Fixpoint short_lines_from (size cur : nat) (s : string) : bool :=
  match s with
  | EmptyString => (cur <? size)%nat
  | String ch s' =>
      if Ascii.eqb ch (ascii_of_nat 10)
      then (cur <? size)%nat && short_lines_from size 0 s'
      else short_lines_from size (S cur) s'
  end.

Definition short_lines (s : string) : bool :=
  short_lines_from defaultBufSize 0 s.

(** [n] times the byte [ch]. *)
Fixpoint repeat_byte (n : nat) (ch : ascii) : string :=
  match n with
  | O => EmptyString
  | S n' => String ch (repeat_byte n' ch)
  end.

(** The lines of a request on the wire, each ended by CR LF. *)
Definition on_wire (lines : list string) : string :=
  foldr (λ l acc, String.append l (String.append CRLF acc)) EmptyString lines.

(** strconv.Atoi on a 64-bit platform. *)
Inductive NumError : Type := ErrSyntax | ErrRange.

Definition digit_of (ch : ascii) : option Z :=
  let n := Z.of_nat (nat_of_ascii ch) in
  if (48 <=? n) && (n <=? 57) then Some (n - 48) else None.

Fixpoint parse_uint (s : string) (n : Z) : Z + NumError :=
  match s with
  | EmptyString => inl n
  | String ch s' =>
      match digit_of ch with
      | None => inr ErrSyntax
      | Some d =>
          if (2 ^ 64) / 10 + 1 <=? n then inr ErrRange
          else if 2 ^ 64 - 1 <? n * 10 + d then inr ErrRange
          else parse_uint s' (n * 10 + d)
      end
  end.

Definition Atoi (s : string) : Z + NumError :=
  match s with
  | EmptyString => inr ErrSyntax
  | String ch s' =>
      let neg := Ascii.eqb ch "-" in
      let digits := if neg || Ascii.eqb ch "+" then s' else s in
      match digits with
      | EmptyString => inr ErrSyntax
      | _ =>
          match parse_uint digits 0 with
          | inr e => inr e
          | inl un =>
              if negb neg && (2 ^ 63 <=? un) then inr ErrRange
              else if neg && (2 ^ 63 <? un) then inr ErrRange
              else inl (if neg then - un else un)
          end
      end
  end.

(** [nline[1:]] *)
Definition drop1 (s : string) : string :=
  match s with
  | EmptyString => EmptyString
  | String _ s' => s'
  end.

(** [len(nline)] *)
Definition len (s : string) : Z := Z.of_nat (String.length s).

(** The errors readRequest returns: a read error as it is, or one of the
    three fmt.Errorf values, kept by their arguments. *)
Inductive parse_error : Type :=
| ReadError (e : errval)
| WrongArray (nline : string) (cause : NumError)
| WrongBytes (nline : string) (cause : NumError)
| UnexpectedValue (sz : Z) (v : string).

Section Parser.
Context {R : Type} `{LineReader R}.

(** The loop [for i := 0; i < n; i++] of readRequest, with [k]
    iterations to go. *)
Fixpoint readElements (k : nat) (line : string) (r : R)
  : (string * option parse_error) * R :=
  match k with
  | O => ((line, None), r)
  | S k' =>
      let '((nline, _, err), r1) := ReadLine r in
      match err with
      | Some e => ((line, Some (ReadError e)), r1)
      | None =>
          let line1 := String.append (String.append line LF) nline in
          if negb (String.prefix "$" nline) then readElements k' line1 r1
          else
            match Atoi (drop1 nline) with
            | inr e => ((line1, Some (WrongBytes nline e)), r1)
            | inl sz =>
                let '((nline2, _, err2), r2) := ReadLine r1 in
                match err2 with
                | Some e => ((line1, Some (ReadError e)), r2)
                | None =>
                    let line2 :=
                      String.append (String.append line1 LF) nline2 in
                    if negb (sz =? len nline2)
                    then ((line2, Some (UnexpectedValue sz nline2)), r2)
                    else readElements k' line2 r2
                end
            end
      end
  end.

Definition readRequest (r : R) : (string * option parse_error) * R :=
  let '((nline, _, err), r1) := ReadLine r in
  match err with
  | Some e => (("", Some (ReadError e)), r1)
  | None =>
      let line := nline in
      if negb (String.prefix "*" nline) then ((line, None), r1)
      else
        match Atoi (drop1 nline) with
        | inr e => ((line, Some (WrongArray nline e)), r1)
        | inl n => readElements (Z.to_nat n) line r1
        end
  end.

(** The canned reply: "$10\r\n0123456789\r\n" *)
Definition canned : string :=
  String.append "$10" (String.append CRLF (String.append "0123456789" CRLF)).

(** [handle]: answer requests until one fails, then close the
    connection.  The result is what was written before the close;
    [None] when [fuel] requests were not enough to reach it. *)
Fixpoint handle (fuel : nat) (r : R) (written : list string)
  : option (list string) :=
  match fuel with
  | O => None
  | S fuel' =>
      match readRequest r with
      | ((_, Some _), _) => Some written
      | ((_, None), r1) => handle fuel' r1 (written ++ [canned])
      end
  end.

(** What one iteration of the loop takes, in terms of what ReadLine
    hands back, be it a whole line or, with isPrefix set, a piece of one:
    a result that does not start with "$", or a header "$<sz>" and the
    result after it, of length sz. *)
Inductive read_element : R → R → Prop :=
| read_element_plain r nline b r1 :
    ReadLine r = ((nline, b, None), r1) →
    String.prefix "$" nline = false →
    read_element r r1
| read_element_bulk r nline b r1 sz nline2 b2 r2 :
    ReadLine r = ((nline, b, None), r1) →
    String.prefix "$" nline = true →
    Atoi (drop1 nline) = inl sz →
    ReadLine r1 = ((nline2, b2, None), r2) →
    sz = len nline2 →
    read_element r r2.

Inductive read_elements : nat → R → R → Prop :=
| read_elements_O r : read_elements O r r
| read_elements_S k r r1 r2 :
    read_element r r1 → read_elements k r1 r2 → read_elements (S k) r r2.

(** A header "$<sz>" after which ReadLine hands back a result of another
    length. *)
Definition read_mismatched (r : R) : Prop :=
  ∃ nline b r1 sz nline2 b2 r2,
    ReadLine r = ((nline, b, None), r1) ∧
    String.prefix "$" nline = true ∧
    Atoi (drop1 nline) = inl sz ∧
    ReadLine r1 = ((nline2, b2, None), r2) ∧
    sz ≠ len nline2.

(** The requests [handle] reads one after the other without error, and
    where the reader is after them. *)
Inductive serves : R → list string → R → Prop :=
| serves_nil r : serves r [] r
| serves_cons r line r1 reqs r' :
    readRequest r = ((line, None), r1) → serves r1 reqs r' →
    serves r (line :: reqs) r'.
End Parser.

(** The spec's wording, on the bytes of the connection: one element of an
    array request is a line, and when that line is a length header
    "$<sz>", the line after it, whose length is the declared one.  The
    lines are those of [next_line], of any length. *)
Inductive element : string → string → Prop :=
| element_plain s nline s1 :
    next_line s = Some (nline, s1) →
    String.prefix "$" nline = false →
    element s s1
| element_bulk s nline s1 sz nline2 s2 :
    next_line s = Some (nline, s1) →
    String.prefix "$" nline = true →
    Atoi (drop1 nline) = inl sz →
    next_line s1 = Some (nline2, s2) →
    sz = len nline2 →
    element s s2.

Inductive elements : nat → string → string → Prop :=
| elements_O s : elements O s s
| elements_S k s s1 s2 :
    element s s1 → elements k s1 s2 → elements (S k) s s2.

(** An element whose declared length is not the actual length of the line
    that follows. *)
Definition mismatched (s : string) : Prop :=
  ∃ nline s1 sz nline2 s2,
    next_line s = Some (nline, s1) ∧
    String.prefix "$" nline = true ∧
    Atoi (drop1 nline) = inl sz ∧
    next_line s1 = Some (nline2, s2) ∧
    sz ≠ len nline2.

(** ** Predicates and runs used in the statements *)

(** An error that reports itself temporary and unwraps to redis.ErrNil. *)
Definition temporary_nil : errval :=
  ErrVal (OtherType false (Some ErrNil)) "nil reply, retry" (Some true).

(** A protocol error of the server, as redigo hands it on. *)
Definition wrongtype_error : errval :=
  ErrVal (OtherType false None) "WRONGTYPE Operation against a key" None.

(** [ev] is a conn.Do of the command of call [cl]. *)
Definition is_do (c : Client) (cl : call) (ev : event) : Prop :=
  ∃ rep err, ev = EvDo (command c cl).1 (command c cl).2 rep err.

(** [res] is what the call returns after the attempts [dos]: an error
    that is not a retriable one, or the success of the last attempt. *)
Definition res_ok (c : Client) (cl : call) (dos : list event) (res : result)
  : Prop :=
  (∃ e, res = (None, Some e) ∧ classify e ≠ ClsRetriable) ∨
  (∃ dos' rep err v0 v1,
      dos = dos' ++ [EvDo (command c cl).1 (command c cl).2 rep err] ∧
      attempt cl v0 rep err = (v1, None) ∧
      res = finish cl v1 None).

(** The log of a call at each program point: the send on [sema], the
    answer of the pool, the attempts, and at the end the receive from
    [sema] and Conn.Close. *)
Definition thread_ok (c : Client) (t : thread) : Prop :=
  match at_pc t with
  | AtSelect => log t = []
  | AtPoolGet => log t = [EvSemaSend]
  | AtLeaseFailed e => log t = [EvSemaSend; EvPoolGet (Some e)]
  | AtDo | AtBackoff =>
      ∃ dos, log t = EvSemaSend :: EvPoolGet None :: dos ∧
             Forall (is_do c (req t)) dos
  | AtCloseSema res =>
      ∃ dos, log t = EvSemaSend :: EvPoolGet None :: dos ∧
             Forall (is_do c (req t)) dos ∧ res_ok c (req t) dos res
  | AtCloseConn res =>
      ∃ dos, log t = EvSemaSend :: EvPoolGet None :: dos ++ [EvSemaRecv] ∧
             Forall (is_do c (req t)) dos ∧ res_ok c (req t) dos res
  | Returned res =>
      (log t = [] ∧ ∃ ce, res = (None, Some (Plain (ctx_Err ce)))) ∨
      (∃ e, log t = [EvSemaSend; EvPoolGet (Some e); EvSemaRecv] ∧
            res = (None, Some (Plain e))) ∨
      (∃ dos, log t = EvSemaSend :: EvPoolGet None ::
                        dos ++ [EvSemaRecv; EvConnClose] ∧
              Forall (is_do c (req t)) dos ∧ res_ok c (req t) dos res)
  end.

(** The invariant of the shared state: every log is in shape, and the
    slots in use are the length of the channel. *)
Definition inv (c : Client) (st : state) : Prop :=
  Forall (thread_ok c) (threads st) ∧ slots_in_use st = sema_len st.

(** Program points at which a call holds a slot. *)
Definition holds_slot (p : pc) : bool :=
  match p with
  | AtPoolGet | AtLeaseFailed _ | AtDo | AtBackoff | AtCloseSema _ => true
  | AtSelect | AtCloseConn _ | Returned _ => false
  end.

(** Program points at which a call holds a leased connection. *)
Definition holds_lease (p : pc) : bool :=
  match p with
  | AtDo | AtBackoff | AtCloseSema _ | AtCloseConn _ => true
  | _ => false
  end.

(** Position of the first event of a kind in a log. *)
Fixpoint index_of (p : event → bool) (l : list event) : option nat :=
  match l with
  | [] => None
  | ev :: l' => if p ev then Some O else S <$> index_of p l'
  end.

Definition demo_opts : Opts :=
  {| Prefix := "goma:"; MaxIdleConns := 1; MaxActiveConns := 1 |}.

Definition demo_client : Client :=
  {| prefix := "goma:";
     pool := {| DialAddr := "localhost:6379"; MaxIdle := 1; MaxActive := 1;
                Wait := false |};
     sema_cap := 1 |}.

Definition get_k : call := CallGet {| GetReq_Key := "k" |}.
Definition put_k : call :=
  CallPut {| PutReq_Kv := {| Key := "k"; Value := "v" |} |}.

(** One Get holds the only slot, a Put waits at the select with its
    context done. *)
Definition busy_run : list action :=
  [Call get_k; Call put_k; Run 0 InSelectSend;
   Run 1 (InCancel CtxDeadlineExceeded)].

Definition busy_state : state :=
  Eval vm_compute in default init (run demo_client init busy_run).

Definition waiting_put : thread :=
  Eval vm_compute in default (new_thread put_k) (threads busy_state !! 1%nat).

(** A Get that runs to its end: slot, lease, one retriable failure, a
    reply, Close. *)
Definition reset_error : errval :=
  ErrVal (NetOpError (Some (ErrVal (OsSyscallError
            (Some (ErrVal (SyscallErrno ECONNRESET)
                     "connection reset by peer" (Some false))))
            "read: connection reset by peer" None)))
         "read tcp: connection reset by peer" (Some false).

Definition done_run : list action :=
  [Call get_k; Run 0 InSelectSend; Run 0 (InPool None);
   Run 0 (InReply ReplyNil (Some reset_error)); Run 0 InWake;
   Run 0 (InReply (ReplyBulk "v") None); Run 0 InNext; Run 0 InNext].

Definition done_state : state :=
  Eval vm_compute in default init (run demo_client init done_run).

Definition done_get : thread :=
  Eval vm_compute in default (new_thread get_k) (threads done_state !! 0%nat).

Definition done_resp : resp :=
  RespGet {| GetResp_Kv := {| Key := "k"; Value := "v" |}; InMemory := true |}.

(** A Get whose attempt is over and whose Close is still to run. *)
Definition closing_run : list action :=
  [Call get_k; Run 0 InSelectSend; Run 0 (InPool None);
   Run 0 (InReply (ReplyBulk "v") None)].

Definition closing_state : state :=
  Eval vm_compute in default init (run demo_client init closing_run).

Definition closing_get : thread :=
  Eval vm_compute in
    default (new_thread get_k) (threads closing_state !! 0%nat).

(** The first Get has received from the channel and not yet closed its
    connection; the second one has the slot and asks the pool. *)
Definition race_run : list action :=
  [Call get_k; Call get_k; Run 0 InSelectSend; Run 0 (InPool None);
   Run 0 (InReply (ReplyBulk "v") None); Run 0 InNext; Run 1 InSelectSend].

Definition pool_exhausted : errval :=
  ErrVal (OtherType false None) "redigo: connection pool exhausted" None.

Definition idle_state : state :=
  Eval vm_compute in default init (run demo_client init [Call get_k]).

(** What the fake server reads for GET key, and a request whose second
    header declares 4 bytes for "key". *)
Definition get_request : list string := ["*2"; "$3"; "GET"; "$3"; "key"].
Definition bad_request : list string := ["*2"; "$3"; "GET"; "$4"; "key"].

(** A request on the wire whose one bulk string is declared with 4096
    bytes and has 4100. *)
Definition long_line : string := repeat_byte 4100 "a".
Definition long_request : string := on_wire ["*1"; "$4096"; long_line].

(** ** client.go: AddrFromEnv *)

(** [os.Getenv]: the value of a variable of the environment, "" when it
    is not set. *)
Definition Getenv (env : gmap string string) (key : string) : string :=
  default "" (env !! key).

Definition AddrFromEnv (env : gmap string string) : string * option errval :=
  let host := Getenv env "REDISHOST" in
  let port := Getenv env "REDISPORT" in
  if String.eqb host "" then
    ("", Some (ErrVal (OtherType false None) "no REDISHOST environment" None))
  else
    let port := if String.eqb port "" then "6379" else port in
    (String.append host (String.append ":" port), None).

(** ** More about a call's log *)

(** Program points inside Retry.Do: the call uses its connection. *)
Definition in_flight (p : pc) : bool :=
  match p with
  | AtDo | AtBackoff => true
  | _ => false
  end.

Definition is_returned (p : pc) : bool :=
  match p with
  | Returned _ => true
  | _ => false
  end.

(** Events on the pool or on the backend connection. *)
Definition is_pool_or_do (ev : event) : bool :=
  match ev with
  | EvPoolGet _ | EvDo _ _ _ _ => true
  | _ => false
  end.

(** What the last conn.Do of a log returned. *)
Fixpoint last_do (l : list event) : option (reply * option errval) :=
  match l with
  | [] => None
  | ev :: l' =>
      match last_do l' with
      | Some x => Some x
      | None =>
          match ev with
          | EvDo _ _ rep err => Some (rep, err)
          | _ => None
          end
      end
  end.

(** The error Get or Put hands to retryErr after conn.Do returned
    [(rep, err)]: Get passes it through redis.Bytes first. *)
Definition backend_error (cl : call) (rep : reply) (err : option errval)
  : option errval :=
  match cl with
  | CallGet _ => (redis_Bytes rep err).2
  | CallPut _ => err
  end.

Definition classify_opt (err : option error) : option class :=
  classify <$> err.

(** Where the result of a call that leased a connection comes from: the
    context's error, or the last conn.Do through retryErr. *)
Definition result_source (t : thread) (res : result) : Prop :=
  (∃ ce, ctx t = Some ce ∧ res = (None, Some (Plain (ctx_Err ce)))) ∨
  (∃ rep err,
      last_do (log t) = Some (rep, err) ∧
      classify_opt (retryErr (backend_error (req t) rep err)) ≠ Some ClsRetriable ∧
      res = finish (req t) (attempt (req t) "" rep err).1
                   (retryErr (backend_error (req t) rep err))).

Definition thread_src (t : thread) : Prop :=
  match at_pc t with
  | AtCloseSema res | AtCloseConn res => result_source t res
  | Returned res =>
      count_ev is_lease (log t) = 0%nat ∨ result_source t res
  | _ => True
  end.

(** ** More about the fake server's parser *)

(** [reads r ls r']: ReadLine gives the lines [ls], one after the other
    and without error, and takes the reader from [r] to [r']. *)
Inductive reads {R : Type} `{LineReader R} : R → list string → R → Prop :=
| reads_nil r : reads r [] r
| reads_cons r l b r1 ls r' :
    ReadLine r = ((l, b, None), r1) → reads r1 ls r' → reads r (l :: ls) r'.

(** strconv.Itoa for a length. *)
Definition itoa (n : nat) : string :=
  DecimalString.NilEmpty.string_of_uint (Nat.to_uint n).

(** The lines of a command as a client writes it, an array of bulk
    strings: "*<number of arguments>", then for every argument
    "$<its length>" and the argument (the request in the comment of
    [handle] is [command_lines ["GET"; "key"]]). *)
Definition bulk_lines (arg : string) : list string :=
  [String "$" (itoa (String.length arg)); arg].

Definition command_lines (args : list string) : list string :=
  String "*" (itoa (length args)) :: (args ≫= bulk_lines).

(** ** remoteexec: pathFromToolchainSpec and nsjailChrootConfig *)

(** gomapb.ToolchainSpec, of which only the path is read here. *)
Record ToolchainSpec : Type := { ToolchainSpec_Path : string }.

(** [e.GetPath()], "" for a nil entry. *)
Definition GetPath (e : option ToolchainSpec) : string :=
  match e with
  | Some e => ToolchainSpec_Path e
  | None => ""
  end.

(** sort.Strings: increasing in the order of the bytes. *)
Definition sort_Strings (r : list string) : list string :=
  merge_sort String.le r.

(** strings.Join *)
Definition strings_Join (elems : list string) (sep : string) : string :=
  String.concat sep elems.

(** nsjailpb.NsJailConfig, the fields nsjailChrootConfig sets. *)
Record IdMap : Type := { InsideId : option string; OutsideId : option string }.

Record MountPt : Type := {
  Src : option string;
  Dst : option string;
  IsBind : option bool;
  Rw : option bool;
  IsDir : option bool
}.

Inductive LogLevel : Type := LogLevel_WARNING.
Inductive RLimit : Type := RLimit_INF.

Record NsJailConfig : Type := {
  Uidmap : list IdMap;
  Gidmap : list IdMap;
  Mount : list MountPt;
  Cwd : option string;
  Log_Level : option LogLevel;
  MountProc : option bool;
  Envar : list string;
  RlimitAsType : option RLimit;
  RlimitFsizeType : option RLimit
}.

Section Nsjail.
(** [cfp.Dir], the one method of clientFilePath used here, and
    proto.MarshalTextString. *)
Context (cfp_Dir : string → string).
Context (MarshalTextString : NsJailConfig → string).

(** The keys of the map [m] after the first loop. *)
Definition toolchain_dirs (ts : list (option ToolchainSpec)) : gset string :=
  list_to_set ((λ e, cfp_Dir (GetPath e)) <$> ts).

(** The second loop over the keys, in the order [ks] in which range
    gives them, and the sort: the slice [r]. *)
Definition dirs_of_keys (ks : list string) : list string :=
  sort_Strings (filter (λ k, ¬ (k = "" ∨ k = ".")) ks).

Definition path_of_keys (ks : list string) : string :=
  strings_Join (dirs_of_keys ks) ":".

Definition pathFromToolchainSpec (ts : list (option ToolchainSpec)) : string :=
  path_of_keys (base.elements (toolchain_dirs ts)).

Definition nsjailChrootConfig (cwd : string)
    (ts : list (option ToolchainSpec)) (envs : list string) : string :=
  let chrootWorkdir := "/tmp/goma_chroot" in
  let cfg :=
    {| Uidmap := [{| InsideId := Some "nobody"; OutsideId := Some "nobody" |}];
       Gidmap := [{| InsideId := Some "nogroup";
                     OutsideId := Some "nogroup" |}];
       Mount := [{| Src := Some chrootWorkdir; Dst := Some "/";
                    IsBind := Some true; Rw := Some true;
                    IsDir := Some true |};
                 {| Src := Some "/dev/null"; Dst := Some "/dev/null";
                    IsBind := Some true; Rw := Some true; IsDir := None |};
                 {| Src := Some "/dev/urandom"; Dst := Some "/dev/urandom";
                    IsBind := Some true; Rw := None; IsDir := None |}];
       Cwd := Some cwd;
       Log_Level := Some LogLevel_WARNING;
       MountProc := Some true;
       Envar := [String.append "PATH=" (pathFromToolchainSpec ts); "HOME=/"]
                  ++ envs;
       RlimitAsType := Some RLimit_INF;
       RlimitFsizeType := Some RLimit_INF |} in
  MarshalTextString cfg.
End Nsjail.

(** ** backend: FromRemoteBackend *)

(** pb.RemoteBackend and Option, the fields read here. *)
Record RemoteBackend : Type := { Address : string; ApiKeyName : string }.

Record BackendOption (AuthT : Type) : Type := {
  APIKeyDir : string;
  Auth : option AuthT
}.
Arguments APIKeyDir {AuthT} _.
Arguments Auth {AuthT} _.

(** GRPC: the three service clients and the bytestream client, each
    known by the connection it was made on ([None] in the zero value). *)
Record GRPC (Conn AuthT : Type) : Type := {
  ExecServer_Client : option Conn;
  FileServer_Client : option Conn;
  ExeclogServer_Client : option Conn;
  ByteStreamClient : option Conn;
  GRPC_Auth : option AuthT;
  APIKey : string
}.
Arguments ExecServer_Client {Conn AuthT} _.
Arguments FileServer_Client {Conn AuthT} _.
Arguments ExeclogServer_Client {Conn AuthT} _.
Arguments ByteStreamClient {Conn AuthT} _.
Arguments GRPC_Auth {Conn AuthT} _.
Arguments APIKey {Conn AuthT} _.

Section Backend.
Context {Conn AuthT : Type}.
(** What the function calls outside this repository: grpc.DialContext
    on an address, ioutil.ReadFile, filepath.Join, strings.TrimSpace. *)
Context (DialContext : string → Conn + errval).
Context (ReadFile : string → string + errval).
Context (filepath_Join : string → string → string).
Context (TrimSpace : string → string).

(** GRPC{} *)
Definition GRPC_zero : GRPC Conn AuthT :=
  {| ExecServer_Client := None; FileServer_Client := None;
     ExeclogServer_Client := None; ByteStreamClient := None;
     GRPC_Auth := None; APIKey := "" |}.

(** The returned func: [None] for [func() {}], [Some conn] for
    [func() { conn.Close() }]. *)
Definition FromRemoteBackend (cfg : RemoteBackend) (opt : BackendOption AuthT)
  : GRPC Conn AuthT * option Conn * option errval :=
  match DialContext (Address cfg) with
  | inr err => (GRPC_zero, None, Some err)
  | inl conn =>
      let read :=
        if String.eqb (ApiKeyName cfg) "" then inl ""
        else ReadFile (filepath_Join (APIKeyDir opt) (ApiKeyName cfg)) in
      match read with
      | inr err => (GRPC_zero, Some conn, Some err)
      | inl apiKey =>
          ({| ExecServer_Client := Some conn;
              FileServer_Client := Some conn;
              ExeclogServer_Client := Some conn;
              ByteStreamClient := Some conn;
              GRPC_Auth := Auth opt;
              APIKey := TrimSpace apiKey |}, Some conn, None)
      end
  end.
End Backend.

(** ** exec: apiErrorValue *)

(** gomapb.ExecResp, the fields read here; the error code is an
    enumeration of the api proto, with its names. *)
Record ExecResp (ExecError : Type) : Type := {
  ExecResp_Error : ExecError;
  ErrorMessage : string;
  MissingInput : list string
}.
Arguments ExecResp_Error {ExecError} _.
Arguments ErrorMessage {ExecError} _.
Arguments MissingInput {ExecError} _.

(** The lines apiErrorValue logs with logger.Errorf. *)
Inductive api_log (ExecError : Type) : Type :=
| LogApiError (errVal : ExecError) (msg : string)
| LogInternal (msg : string)
| LogMissingInputs (missing : nat).
Arguments LogApiError {ExecError} _ _.
Arguments LogInternal {ExecError} _.
Arguments LogMissingInputs {ExecError} _.

Section ApiError.
Context {ExecError : Type} `{EqDecision ExecError}.
(** gomapb.ExecResp_OK and the String method of the enumeration. *)
Context (ExecResp_OK : ExecError) (ExecError_String : ExecError → string).

(** The value, and the line logged if any. *)
Definition apiErrorValue (resp : ExecResp ExecError)
  : string * option (api_log ExecError) :=
  let errVal := ExecResp_Error resp in
  if decide (errVal ≠ ExecResp_OK) then
    (ExecError_String errVal, Some (LogApiError errVal (ErrorMessage resp)))
  else if decide (0 < String.length (ErrorMessage resp))%nat then
    ("internal", Some (LogInternal (ErrorMessage resp)))
  else if decide (0 < length (MissingInput resp))%nat then
    ("missing-inputs", Some (LogMissingInputs (length (MissingInput resp))))
  else ("OK", None).
End ApiError.

(** ** More concrete runs and inputs *)

Definition zero_opts : Opts :=
  {| Prefix := ""; MaxIdleConns := DefaultMaxIdleConns; MaxActiveConns := 0 |}.

Definition zero_client : Client :=
  {| prefix := "";
     pool := {| DialAddr := "localhost:6379"; MaxIdle := 50; MaxActive := 0;
                Wait := false |};
     sema_cap := 0 |}.

(** A Get on a client of capacity 0: it waits until its context is
    done. *)
Definition zero_run : list action :=
  [Call get_k; Run 0 (InCancel CtxCanceled); Run 0 InSelectDone].

Definition zero_state : state :=
  Eval vm_compute in default init (run zero_client init zero_run).

Definition zero_get : thread :=
  Eval vm_compute in default (new_thread get_k) (threads zero_state !! 0%nat).

(** A Put that runs to its end. *)
Definition put_run : list action :=
  [Call put_k; Run 0 InSelectSend; Run 0 (InPool None);
   Run 0 (InReply (ReplyStatus "OK") None); Run 0 InNext; Run 0 InNext].

Definition put_state : state :=
  Eval vm_compute in default init (run demo_client init put_run).

Definition put_done : thread :=
  Eval vm_compute in default (new_thread put_k) (threads put_state !! 0%nat).

(** A Get for a key that is not there. *)
Definition miss_run : list action :=
  [Call get_k; Run 0 InSelectSend; Run 0 (InPool None);
   Run 0 (InReply ReplyNil None); Run 0 InNext; Run 0 InNext].

Definition miss_state : state :=
  Eval vm_compute in default init (run demo_client init miss_run).

Definition miss_get : thread :=
  Eval vm_compute in default (new_thread get_k) (threads miss_state !! 0%nat).

(** A directory function for paths under /usr/bin and /usr/lib. *)
Definition usr_Dir (p : string) : string :=
  if String.prefix "/usr/bin/" p then "/usr/bin"
  else if String.prefix "/usr/lib/" p then "/usr/lib"
  else ".".

Definition clang_specs : list (option ToolchainSpec) :=
  [Some {| ToolchainSpec_Path := "/usr/lib/libc.so" |};
   Some {| ToolchainSpec_Path := "/usr/bin/clang" |};
   Some {| ToolchainSpec_Path := "clang++" |};
   Some {| ToolchainSpec_Path := "/usr/bin/ld" |}].

(** A stand-in for proto.MarshalTextString. *)
Definition envar_text (cfg : NsJailConfig) : string :=
  String.concat LF (Envar cfg).

(** The error codes of gomapb.ExecResp by name. *)
Inductive ApiError : Type := Api_OK | Api_BAD_REQUEST.

#[export] Instance ApiError_eq_dec : EqDecision ApiError.
Proof. solve_decision. Defined.

Definition Api_String (e : ApiError) : string :=
  match e with
  | Api_OK => "OK"
  | Api_BAD_REQUEST => "BAD_REQUEST"
  end.

(** A backend whose dial succeeds with connection 7 and whose key file
    cannot be read. *)
Definition dial_ok (addr : string) : nat + errval := inl 7%nat.
Definition no_file (name : string) : string + errval :=
  inr (ErrVal (OtherType false None) "open: no such file or directory" None).
Definition join_slash (dir name : string) : string :=
  String.append dir (String.append "/" name).
Definition keep (s : string) : string := s.

Definition rbe_backend : RemoteBackend :=
  {| Address := "remotebuildexecution.googleapis.com:443";
     ApiKeyName := "api-key" |}.

Definition rbe_option : BackendOption unit :=
  {| APIKeyDir := "/etc/goma"; Auth := None |}.

(** ** server: DefaultDialOption and DialContext *)

(** time.Second, in nanoseconds as a time.Duration. *)
Definition Second : Z := 1000000000.

(** keepalive.ClientParameters *)
Record ClientParameters : Type :=
  { Time : Z; Timeout : Z; PermitWithoutStream : bool }.

(** The grpc dial options that occur here, and any other by a name. *)
Inductive DialOption : Type :=
| WithInsecure
| WithKeepaliveParams (kp : ClientParameters)
| WithStatsHandler (handler : string)
| OtherDialOption (name : string).

Definition DefaultDialOption : list DialOption :=
  [WithInsecure;
   WithKeepaliveParams
     {| Time := 10 * Second; Timeout := 5 * Second; PermitWithoutStream := false |};
   WithStatsHandler "ocgrpc.ClientHandler"].

(** DialContext: the options it hands to grpc.DialContext. *)
Definition DialContext_options (opts : list DialOption) : list DialOption :=
  opts ++ DefaultDialOption.

Definition is_keepalive (o : DialOption) : bool :=
  match o with WithKeepaliveParams _ => true | _ => false end.

Definition is_stats_handler (o : DialOption) : bool :=
  match o with WithStatsHandler _ => true | _ => false end.

(** * Properties *)

(** ** The definitions on small inputs *)

Example Atoi_examples :
  Atoi "42" = inl 42 ∧ Atoi "-7" = inl (-7) ∧ Atoi "+3" = inl 3 ∧
  Atoi "" = inr ErrSyntax ∧ Atoi "-" = inr ErrSyntax ∧
  Atoi "1_0" = inr ErrSyntax ∧
  Atoi "9223372036854775807" = inl (2 ^ 63 - 1) ∧
  Atoi "9223372036854775808" = inr ErrRange ∧
  Atoi "-9223372036854775808" = inl (- 2 ^ 63).
Proof. repeat split. Qed.

Example retryErr_examples :
  retryErr (Some reset_error) = Some (RetriableError reset_error) ∧
  retryErr (Some ErrNil) = Some (StatusError NotFound "redigo: nil returned") ∧
  retryErr (Some (ctx_Err CtxDeadlineExceeded)) =
    Some (RetriableError (ctx_Err CtxDeadlineExceeded)) ∧
  retryErr (Some pool_exhausted) = Some (Plain pool_exhausted).
Proof. repeat split. Qed.

Example readRequest_examples :
  readRequest get_request =
    ((String.append "*2" (String.append LF (String.append "$3"
       (String.append LF (String.append "GET" (String.append LF
         (String.append "$3" (String.append LF "key"))))))), None), []) ∧
  readRequest ["*x"] = (("*x", Some (WrongArray "*x" ErrSyntax)), []) ∧
  readRequest ["*1"] = (("*1", Some (ReadError EOF)), []) ∧
  readRequest ["*-1"; "PING"] = (("*-1", None), ["PING"]) ∧
  handle 3 (get_request ++ ["PING"]) [] = Some [canned; canned].
Proof. repeat split. Qed.

(** The request of the comment in [handle]:
    *2\r\n$3\r\nGET\r\n$3\r\nkey\r\n *)
Example readRequest_on_wire :
  snd (fst (readRequest (on_wire get_request))) = None ∧
  snd (readRequest (on_wire get_request)) = EmptyString ∧
  fst (readRequest (on_wire get_request)) =
    fst (readRequest get_request) ∧
  handle 3 (String.append (on_wire get_request) (on_wire bad_request)) []
    = Some [canned].
Proof. repeat split. Qed.

Example done_log :
  log done_get =
    [EvSemaSend; EvPoolGet None;
     EvDo "GET" ["goma:k"] ReplyNil (Some reset_error);
     EvDo "GET" ["goma:k"] (ReplyBulk "v") None;
     EvSemaRecv; EvConnClose].
Proof. reflexivity. Qed.

(** ** The error classifier *)

Lemma reset_errno_spec (e : errval) :
  match dyn_of e with
  | SyscallErrno n => (n =? ECONNRESET) || (n =? ECONNABORTED)
  | _ => false
  end = true ↔ is_reset_errno e.
Proof.
  destruct e as [d m t]; unfold is_reset_errno; simpl. split.
  - destruct d; try discriminate. intros Hb. exists errno. split; [done|].
    apply orb_true_iff in Hb as [Hb|Hb]; apply Z.eqb_eq in Hb; auto.
  - intros (n & -> & Hn).
    apply orb_true_iff. destruct Hn as [-> | ->]; [left | right]; done.
Qed.

(** isConnError is the spec's "reset or aborted under at most one
    syscall-error wrapper". *)
Lemma isConnError_spec (cause : option errval) :
  isConnError cause = true ↔ conn_reset_cause cause.
Proof.
  unfold conn_reset_cause. split.
  - destruct cause as [[d m t]|]; [|discriminate].
    intros Hc. exists (ErrVal d m t). split; [done|].
    destruct d as [|n|[[d' m' t']|]|o|b o]; simpl in Hc; try discriminate.
    + left. by apply (reset_errno_spec (ErrVal (SyscallErrno n) m t)).
    + right. exists (ErrVal d' m' t'). split; [done|].
      apply reset_errno_spec. by destruct d'.
  - intros (e & -> & [He | (e' & Hd & He')]).
    + apply reset_errno_spec in He. destruct e as [[] m t]; done.
    + apply reset_errno_spec in He'.
      destruct e as [d m t]; simpl in Hd; subst d.
      destruct e' as [[] m' t']; done.
Qed.

Lemma retryErr_nil : retryErr None = None.
Proof. reflexivity. Qed.

Lemma retryErr_not_nil (e : errval) : retryErr (Some e) ≠ None.
Proof.
  unfold retryErr. destruct (errors_Is_ErrNil e); [done|].
  destruct (Temporary e) as [[]|]; try done;
    destruct (dyn_of e); try done; by destruct (isConnError _).
Qed.



(** C6: an error matching redis.ErrNil becomes the status NotFound (which
    callers read off with status.Code), and an error that neither matches
    it nor is made Retriable comes back as the very same value. *)
Theorem retryErr_not_found_or_unchanged (e : errval) :
  (errors_Is_ErrNil e = true →
     retryErr (Some e) = Some (StatusError NotFound (Error e)) ∧
     status_Code (retryErr (Some e)) = NotFound) ∧
  (errors_Is_ErrNil e = false →
     retryErr (Some e) ≠ Some (RetriableError e) →
     retryErr (Some e) = Some (Plain e)).
Proof.
  unfold retryErr. split.
  - by intros ->.
  - intros -> Hr. destruct (Temporary e) as [[]|]; [done | |];
      (destruct (dyn_of e); try done; by destruct (isConnError _)).
Qed.

Lemma retryErr_not_found_or_unchanged_witness :
  (retryErr (Some ErrNil) = Some (StatusError NotFound (Error ErrNil)) ∧
   status_Code (retryErr (Some ErrNil)) = NotFound) ∧
  retryErr (Some wrongtype_error) = Some (Plain wrongtype_error).
Proof.
  split.
  - apply (proj1 (retryErr_not_found_or_unchanged ErrNil)). reflexivity.
  - apply (proj2 (retryErr_not_found_or_unchanged wrongtype_error)).
    + reflexivity.
    + discriminate.
Defined.

(** ** Shape of a call's log *)

Lemma Retry_return_not_retriable (r : option error) (e : error) :
  Retry_after_attempt r = RetryReturn (Some e) → classify e ≠ ClsRetriable.
Proof.
  destruct r as [[| |]|]; simpl; intros Hr; inversion Hr; subst;
    simpl; try done. by destruct c.
Qed.

Lemma Retry_return_nil (r : option error) :
  Retry_after_attempt r = RetryReturn None → r = None.
Proof. by destruct r as [[| |]|]. Qed.

Lemma finish_error (cl : call) (v0 : string) (e : error) :
  finish cl v0 (Some e) = (None, Some e).
Proof. by destruct cl. Qed.

Ltac unfold_step :=
  unfold thread_step, poolGetContext, Retry_Do, activeConn_Close.

Tactic Notation "unfold_step" "in" hyp(H) :=
  unfold thread_step, poolGetContext, Retry_Do, activeConn_Close in H.

(** Every step of a call keeps its log in shape. *)
Lemma thread_step_ok (c : Client) (inp : input) (t t' : thread) (op : sema_op) :
  thread_ok c t → thread_step c inp t = Some (t', op) → thread_ok c t'.
Proof.
  unfold thread_ok. unfold_step. intros Hok Hstep.
  destruct inp as [ce| | |[e|]|rep err| |].
  - (* the context becomes done *)
    destruct (ctx t); [discriminate|]. by injection Hstep as <- <-.
  - (* select: send *)
    destruct (at_pc t); try discriminate.
    injection Hstep as <- <-; simpl. by rewrite Hok.
  - (* select: done *)
    destruct (at_pc t); try discriminate.
    destruct (ctx t) as [ce|]; [|discriminate].
    injection Hstep as <- <-; simpl. left. split; [done|]. by exists ce.
  - (* a failed lease *)
    destruct (at_pc t); try discriminate.
    injection Hstep as <- <-; simpl. by rewrite Hok.
  - (* a lease *)
    destruct (at_pc t); try discriminate.
    injection Hstep as <- <-; simpl. rewrite Hok. by exists nil.
  - (* an attempt *)
    destruct (at_pc t); try discriminate.
    destruct (command c (req t)) as [cmd args] eqn:Hcmd.
    destruct (attempt (req t) (v t) rep err) as [v1 r] eqn:Hat.
    injection Hstep as <- <-; simpl.
    destruct Hok as (dos & Hlog & Hdos).
    assert (Hdos' : Forall (is_do c (req t)) (dos ++ [EvDo cmd args rep err])).
    { apply Forall_app; split; [done|]. apply Forall_singleton.
      exists rep, err. by rewrite Hcmd. }
    destruct (Retry_after_attempt r) as [[e|]|] eqn:Hr; simpl.
    + exists (dos ++ [EvDo cmd args rep err]). rewrite Hlog.
      split; [done|]. split; [done|]. left. exists e.
      split; [apply finish_error|]. by eapply Retry_return_not_retriable.
    + exists (dos ++ [EvDo cmd args rep err]). rewrite Hlog.
      split; [done|]. split; [done|]. right.
      apply Retry_return_nil in Hr; subst r.
      exists dos, rep, err, (v t), v1. by rewrite Hcmd.
    + exists (dos ++ [EvDo cmd args rep err]). by rewrite Hlog.
  - (* the backoff ends *)
    destruct (at_pc t); try discriminate.
    destruct Hok as (dos & Hlog & Hdos).
    destruct (ctx t) as [ce|]; simpl in Hstep; injection Hstep as <- <-; simpl.
    + exists dos. split; [done|]. split; [done|]. left.
      eexists. split; [apply finish_error | done].
    + by exists dos.
  - (* the next statement *)
    destruct (at_pc t) as [| |e| | |res|res|res]; try discriminate;
      injection Hstep as <- <-; simpl.
    + right; left. exists e. by rewrite Hok.
    + destruct Hok as (dos & -> & Hdos & Hres). by exists dos.
    + right; right. destruct Hok as (dos & -> & Hdos & Hres). exists dos.
      split; [|done]. simpl. by rewrite <- app_assoc.
Qed.

(** ** Counting slots *)

Lemma count_ev_app (p : event → bool) (l1 l2 : list event) :
  count_ev p (l1 ++ l2) = (count_ev p l1 + count_ev p l2)%nat.
Proof. unfold count_ev. by rewrite filter_app, length_app. Qed.

Lemma count_ev_cons (p : event → bool) (ev : event) (l : list event) :
  count_ev p (ev :: l) = ((if p ev then 1 else 0) + count_ev p l)%nat.
Proof.
  unfold count_ev. destruct (p ev) eqn:Hp.
  - by rewrite filter_cons_True.
  - rewrite filter_cons_False; [done|]. by rewrite Hp.
Qed.

Lemma count_ev_nil (p : event → bool) : count_ev p [] = 0%nat.
Proof. reflexivity. Qed.

(** The attempts of a call touch neither the gate nor the pool. *)
Lemma count_ev_dos (c : Client) (cl : call) (p : event → bool) (dos : list event) :
  (∀ cmd args rep err, p (EvDo cmd args rep err) = false) →
  Forall (is_do c cl) dos → count_ev p dos = 0%nat.
Proof.
  intros Hp. induction 1 as [|ev dos (rep & err & ->) _ IH]; [done|].
  by rewrite count_ev_cons, Hp, IH.
Qed.

Ltac count_log :=
  repeat (rewrite ?count_ev_app, ?count_ev_cons, ?count_ev_nil; simpl);
  repeat match goal with
    | H : Forall (is_do ?c ?cl) ?dos |- context [count_ev ?p ?dos] =>
        rewrite (count_ev_dos c cl p dos) by (done || exact H)
    end;
  simpl; try lia.

Lemma slots_held_pc (c : Client) (t : thread) :
  thread_ok c t → slots_held t = if holds_slot (at_pc t) then 1%nat else 0%nat.
Proof.
  unfold thread_ok, slots_held. destruct (at_pc t); simpl.
  - by intros ->.
  - by intros ->.
  - by intros ->.
  - intros (dos & -> & Hdos). count_log.
  - intros (dos & -> & Hdos). count_log.
  - intros (dos & -> & Hdos & _). count_log.
  - intros (dos & -> & Hdos & _). count_log.
  - intros [[-> _] | [(e & -> & _) | (dos & -> & Hdos & _)]]; count_log.
Qed.

Lemma leases_held_pc (c : Client) (t : thread) :
  thread_ok c t → leases_held t = if holds_lease (at_pc t) then 1%nat else 0%nat.
Proof.
  unfold thread_ok, leases_held. destruct (at_pc t); simpl.
  - by intros ->.
  - by intros ->.
  - by intros ->.
  - intros (dos & -> & Hdos). count_log.
  - intros (dos & -> & Hdos). count_log.
  - intros (dos & -> & Hdos & _). count_log.
  - intros (dos & -> & Hdos & _). count_log.
  - intros [[-> _] | [(e & -> & _) | (dos & -> & Hdos & _)]]; count_log.
Qed.

(** What a step does to the gate matches what it does to the call. *)
Lemma thread_step_sema (c : Client) (inp : input) (t t' : thread) (op : sema_op) :
  thread_step c inp t = Some (t', op) →
  match op with
  | SemaNone => holds_slot (at_pc t') = holds_slot (at_pc t)
  | SemaSend => holds_slot (at_pc t) = false ∧ holds_slot (at_pc t') = true
  | SemaRecv => holds_slot (at_pc t) = true ∧ holds_slot (at_pc t') = false
  end.
Proof.
  unfold_step. intros Hstep.
  destruct inp as [ce| | |[e|]|rep err| |]; destruct (at_pc t) eqn:Hpc;
    try discriminate;
    try (destruct (ctx t); try discriminate);
    try (destruct (command c (req t)); destruct (attempt _ _ _ _);
         destruct (Retry_after_attempt _));
    simpl in Hstep; injection Hstep as <- <-; simpl; rewrite ?Hpc; done.
Qed.

(** ** The gate invariant *)

Lemma sum_list_insert (f : thread → nat) (ts : list thread) (i : nat)
    (t t' : thread) :
  ts !! i = Some t →
  (sum_list_with f (<[i:=t']> ts) + f t = sum_list_with f ts + f t')%nat.
Proof.
  revert i. induction ts as [|a ts IH]; intros [|i] Hi; csimpl in *;
    try discriminate.
  - injection Hi as ->. lia.
  - specialize (IH i Hi). lia.
Qed.

Lemma sum_list_lookup_le (f : thread → nat) (ts : list thread) (i : nat)
    (t : thread) :
  ts !! i = Some t → (f t ≤ sum_list_with f ts)%nat.
Proof.
  revert i. induction ts as [|a ts IH]; intros [|i] Hi; csimpl in *;
    try discriminate.
  - injection Hi as ->. lia.
  - specialize (IH i Hi). lia.
Qed.

Lemma Forall_thread_insert (c : Client) (ts : list thread) (i : nat)
    (t' : thread) :
  Forall (thread_ok c) ts → thread_ok c t' → Forall (thread_ok c) (<[i:=t']> ts).
Proof. intros Hts Ht'. by apply Forall_insert. Qed.

Lemma new_thread_ok (c : Client) (cl : call) : thread_ok c (new_thread cl).
Proof. reflexivity. Qed.

Lemma init_inv (c : Client) : inv c init.
Proof. split; [constructor | reflexivity]. Qed.

(** Every transition keeps the logs in shape and the slots in use equal to
    the length of the channel. *)
Lemma exec_inv (c : Client) (st st' : state) (a : action) :
  inv c st → exec c st a = Some st' → inv c st'.
Proof.
  intros (Hts & Hsum) Hex. unfold inv, slots_in_use in *.
  destruct a as [cl | i inp | i j]; unfold exec in Hex.
  - (* a new call *)
    injection Hex as <-. cbn [threads sema_len]. split.
    + apply Forall_app. split; [done|]. apply Forall_singleton, new_thread_ok.
    + rewrite sum_list_with_app, Hsum. cbn. lia.
  - (* a step of call i *)
    destruct (threads st !! i) as [t|] eqn:Hi; [|discriminate].
    destruct (thread_step c inp t) as [[t' op]|] eqn:Hstep; [|discriminate].
    assert (Hok : thread_ok c t) by (by eapply Forall_lookup_1).
    assert (Hok' : thread_ok c t') by (by eapply thread_step_ok).
    pose proof (thread_step_sema _ _ _ _ _ Hstep) as Hop.
    pose proof (sum_list_insert slots_held _ _ _ t' Hi) as Hins.
    rewrite (slots_held_pc c t Hok), (slots_held_pc c t' Hok') in Hins.
    destruct op.
    + injection Hex as <-. cbn [threads sema_len]. rewrite Hop in Hins.
      split; [by apply Forall_thread_insert | lia].
    + destruct (Z.of_nat (sema_len st) <? sema_cap c); [|discriminate].
      injection Hex as <-. cbn [threads sema_len].
      destruct Hop as [Hop1 Hop2]. rewrite Hop1, Hop2 in Hins.
      split; [by apply Forall_thread_insert | lia].
    + destruct (sema_len st) as [|n] eqn:Hlen; [discriminate|].
      injection Hex as <-. cbn [threads sema_len].
      destruct Hop as [Hop1 Hop2]. rewrite Hop1, Hop2 in Hins.
      split; [by apply Forall_thread_insert | lia].
  - (* a direct hand-over needs an empty channel and a call about to
       receive, which holds a slot *)
    destruct (sema_len st) eqn:Hlen; [|discriminate].
    destruct (threads st !! i) as [ti|]; [|discriminate].
    destruct (threads st !! j) as [tj|] eqn:Hj; [|discriminate].
    destruct (thread_step c InSelectSend ti) as [[ti' [| |]]|]; try discriminate.
    destruct (thread_step c InNext tj) as [[tj' [| |]]|] eqn:Hstep;
      try discriminate.
    apply thread_step_sema in Hstep. destruct Hstep as [Hh _].
    pose proof (sum_list_lookup_le slots_held _ _ _ Hj) as Hle.
    rewrite (slots_held_pc c tj) in Hle by (by eapply Forall_lookup_1).
    rewrite Hh in Hle. lia.
Qed.

(** The channel never holds more than its capacity. *)
Lemma exec_cap (c : Client) (st st' : state) (a : action) :
  Z.of_nat (sema_len st) ≤ sema_cap c → exec c st a = Some st' →
  Z.of_nat (sema_len st') ≤ sema_cap c.
Proof.
  intros Hcap Hex. destruct a as [cl | i inp | i j]; unfold exec in Hex.
  - by injection Hex as <-.
  - destruct (threads st !! i) as [t|]; [|discriminate].
    destruct (thread_step c inp t) as [[t' [| |]]|]; try discriminate.
    + by injection Hex as <-.
    + destruct (Z.of_nat (sema_len st) <? sema_cap c) eqn:Hlt; [|discriminate].
      apply Z.ltb_lt in Hlt. injection Hex as <-. cbn [sema_len]. lia.
    + destruct (sema_len st) as [|n]; [discriminate|].
      injection Hex as <-. cbn [sema_len]. lia.
  - destruct (sema_len st); [|discriminate].
    destruct (threads st !! i); [|discriminate].
    destruct (threads st !! j); [|discriminate].
    destruct (thread_step c InSelectSend _) as [[? [| |]]|]; try discriminate.
    destruct (thread_step c InNext _) as [[? [| |]]|]; try discriminate.
    destruct (decide (i = j)); [discriminate|]. by injection Hex as <-.
Qed.

Lemma run_inv (c : Client) (l : list action) (st st' : state) :
  inv c st → run c st l = Some st' → inv c st'.
Proof.
  revert st. induction l as [|a l IH]; intros st Hinv Hrun; simpl in Hrun.
  - by injection Hrun as <-.
  - destruct (exec c st a) as [st1|] eqn:Hex; [|discriminate].
    eapply IH; [|done]. by eapply exec_inv.
Qed.

Lemma run_cap (c : Client) (l : list action) (st st' : state) :
  Z.of_nat (sema_len st) ≤ sema_cap c → run c st l = Some st' →
  Z.of_nat (sema_len st') ≤ sema_cap c.
Proof.
  revert st. induction l as [|a l IH]; intros st Hinv Hrun; simpl in Hrun.
  - by injection Hrun as <-.
  - destruct (exec c st a) as [st1|] eqn:Hex; [|discriminate].
    eapply IH; [|done]. by eapply exec_cap.
Qed.

Lemma NewClient_cap (addr : string) (opts : Opts) (c : Client) :
  NewClient addr opts = Some c →
  sema_cap c = MaxActiveConns opts ∧ 0 ≤ sema_cap c ∧ prefix c = Prefix opts.
Proof.
  unfold NewClient. destruct (MaxActiveConns opts <? 0) eqn:Hneg; [discriminate|].
  apply Z.ltb_ge in Hneg. by intros [= <-].
Qed.

Lemma reachable_inv (c : Client) (st : state) : reachable c st → inv c st.
Proof. intros [l Hl]. eapply run_inv; [by apply init_inv | done]. Qed.

Lemma reachable_thread_ok (c : Client) (st : state) (i : nat) (t : thread) :
  reachable c st → threads st !! i = Some t → thread_ok c t.
Proof.
  intros Hr Hi. apply reachable_inv in Hr as [Hts _].
  by eapply Forall_lookup_1.
Qed.

Lemma reachable_cap (c : Client) (st : state) :
  0 ≤ sema_cap c → reachable c st → Z.of_nat (sema_len st) ≤ sema_cap c.
Proof. intros Hc [l Hl]. eapply run_cap; [|done]. simpl. lia. Qed.

(** C1: for a client made with MaxActiveConns = M, in every state that
    concurrently running Get and Put calls can reach, the slots in use (the
    calls past the gate that have not yet given their slot back) are at
    most M; their number is the length of the channel. *)
Theorem slots_in_use_le_max (addr : string) (opts : Opts) (c : Client)
    (st : state) :
  NewClient addr opts = Some c →
  reachable c st →
  Z.of_nat (slots_in_use st) ≤ MaxActiveConns opts ∧
  slots_in_use st = sema_len st ∧
  slots_in_use st =
    length (filter (λ t, holds_slot (at_pc t) = true) (threads st)).
Proof.
  intros Hnew Hreach. apply NewClient_cap in Hnew as (Hcap & Hpos & _).
  pose proof (reachable_cap c st Hpos Hreach) as Hle.
  destruct (reachable_inv c st Hreach) as (Hts & Hsum).
  rewrite <- Hcap. split; [lia|]. split; [done|].
  unfold slots_in_use. clear Hsum Hle Hreach.
  induction Hts as [|t ts Ht _ IH]; [done|]. simpl.
  rewrite IH, (slots_held_pc c t Ht).
  destruct (holds_slot (at_pc t)) eqn:Hh.
  - by rewrite filter_cons_True.
  - rewrite filter_cons_False; [done|]. by rewrite Hh.
Qed.

(** ** Releasing the lease *)

Lemma thread_counts (c : Client) (t : thread) :
  thread_ok c t →
  (count_ev is_recv (log t) ≤ count_ev is_send (log t) ≤ 1)%nat ∧
  (count_ev is_close (log t) ≤ count_ev is_lease (log t) ≤ 1)%nat.
Proof.
  unfold thread_ok. destruct (at_pc t); simpl.
  - intros ->. count_log.
  - intros ->. count_log.
  - intros ->. count_log.
  - intros (dos & -> & Hdos). count_log.
  - intros (dos & -> & Hdos). count_log.
  - intros (dos & -> & Hdos & _). count_log.
  - intros (dos & -> & Hdos & _). count_log.
  - intros [[-> _] | [(e & -> & _) | (dos & -> & Hdos & _)]]; count_log.
Qed.

Lemma returned_counts (c : Client) (t : thread) (res : result) :
  thread_ok c t → at_pc t = Returned res →
  count_ev is_lease (log t) = 1%nat →
  count_ev is_close (log t) = 1%nat ∧ count_ev is_recv (log t) = 1%nat ∧
  count_ev is_send (log t) = 1%nat.
Proof.
  unfold thread_ok. intros Hok Hpc. rewrite Hpc in Hok.
  destruct Hok as [[-> _] | [(e & -> & _) | (dos & -> & Hdos & _)]];
    count_log.
Qed.

(** A call about to receive from the channel finds it non-empty. *)
Lemma recv_not_blocked (c : Client) (st : state) (i : nat) (t : thread) :
  inv c st → threads st !! i = Some t → holds_slot (at_pc t) = true →
  ∃ n, sema_len st = S n.
Proof.
  intros [Hts Hsum] Hi Hh.
  pose proof (sum_list_lookup_le slots_held _ _ _ Hi) as Hle.
  rewrite (slots_held_pc c t) in Hle by (by eapply Forall_lookup_1).
  rewrite Hh in Hle. unfold slots_in_use in Hsum.
  destruct (sema_len st) as [|n]; [lia | by exists n].
Qed.

(** Once Retry.Do has returned, the deferred Close runs to the end. *)
Lemma close_runs (c : Client) (st : state) (i : nat) (t : thread) (res : result) :
  inv c st → threads st !! i = Some t → at_pc t = AtCloseSema res →
  ∃ st' t', run c st [Run i InNext; Run i InNext] = Some st' ∧
            threads st' !! i = Some t' ∧ at_pc t' = Returned res ∧
            log t' = log t ++ [EvSemaRecv; EvConnClose].
Proof.
  intros Hinv Hi Hpc.
  destruct (recv_not_blocked c st i t Hinv Hi) as [n Hn]; [by rewrite Hpc|].
  assert (Hlt : (i < length (threads st))%nat) by (by eapply lookup_lt_Some).
  eexists _, _. unfold run, exec. unfold_step. rewrite Hi, Hpc, Hn.
  cbn [threads sema_len]. rewrite list_lookup_insert_eq by done.
  cbn [emit at_pc]. split; [done|].
  cbn [threads]. rewrite list_lookup_insert_eq by (by rewrite length_insert).
  split; [done|]. split; [done|]. simpl. by rewrite <- app_assoc.
Qed.


(** ** The admission gate: poolGetContext *)

(** In a reachable state no send meets a receive directly: a call about
    to receive holds a slot, so the channel is not empty. *)
Lemma no_handoff (c : Client) (st : state) (i j : nat) :
  inv c st → exec c st (Handoff i j) = None.
Proof.
  intros Hinv. unfold exec.
  destruct (sema_len st) eqn:Hlen; [|done].
  destruct (threads st !! i) as [ti|]; [|done].
  destruct (threads st !! j) as [tj|] eqn:Hj; [|done].
  destruct (thread_step c InSelectSend ti) as [[ti' [| |]]|]; try done.
  destruct (thread_step c InNext tj) as [[tj' [| |]]|] eqn:Hstep; try done.
  apply thread_step_sema in Hstep. destruct Hstep as [Hh _].
  destruct (recv_not_blocked c st j tj Hinv Hj Hh) as [n Hn]. congruence.
Qed.


(** ** What Get and Put return *)

(** The retry loop has no bound on the attempts: after a retriable
    failure and the backoff, with the context not done, the call is about
    to attempt again. *)
Lemma retry_again (c : Client) (t : thread) (rep : reply) (e : errval) :
  at_pc t = AtDo → ctx t = None →
  retryErr (Some e) = Some (RetriableError e) →
  ∃ t1 t2, thread_step c (InReply rep (Some e)) t = Some (t1, SemaNone) ∧
           thread_step c InWake t1 = Some (t2, SemaNone) ∧
           at_pc t2 = AtDo ∧ ctx t2 = None ∧ req t2 = req t.
Proof.
  intros Hpc Hctx Hre. unfold_step. rewrite Hpc.
  destruct (command c (req t)) as [cmd args].
  assert (Hat : ∃ v1, attempt (req t) (v t) rep (Some e) =
                        (v1, Some (RetriableError e))).
  { destruct (req t); unfold attempt, Get_attempt, Put_attempt, redis_Bytes;
      rewrite Hre; eauto. }
  destruct Hat as [v1 ->]. simpl. eexists _, _. split; [done|].
  simpl. rewrite Hctx. simpl. done.
Qed.


Lemma redis_Bytes_ok (rep : reply) (err : option errval) (val : string) :
  redis_Bytes rep err = (val, None) →
  err = None ∧ (rep = ReplyBulk val ∨ rep = ReplyStatus val).
Proof.
  unfold redis_Bytes. destruct err; [discriminate|].
  destruct rep; intros [= <-]; auto.
Qed.

(** C8: a Get for [key] that returns a response has sent only
    GET prefix+key to the backend, prefix being the configured one; the
    response carries [key] itself, the bytes of the last reply as they
    came, and InMemory = true. *)
Theorem Get_success_response (addr : string) (opts : Opts) (c : Client)
    (st : state) (i : nat) (t : thread) (key : string) (r : resp) :
  NewClient addr opts = Some c →
  reachable c st → threads st !! i = Some t →
  req t = CallGet {| GetReq_Key := key |} →
  at_pc t = Returned (Some r, None) →
  ∃ dos rep val,
    log t = EvSemaSend :: EvPoolGet None ::
              dos ++ [EvDo "GET" [String.append (Prefix opts) key] rep None;
                      EvSemaRecv; EvConnClose] ∧
    Forall (λ ev, ∃ rep' err',
              ev = EvDo "GET" [String.append (Prefix opts) key] rep' err') dos ∧
    (rep = ReplyBulk val ∨ rep = ReplyStatus val) ∧
    r = RespGet {| GetResp_Kv := {| Key := key; Value := val |};
                   InMemory := true |}.
Proof.
  intros Hnew Hr Hi Hreq Hpc. apply NewClient_cap in Hnew as (_ & _ & Hpre).
  pose proof (reachable_thread_ok c st i t Hr Hi) as Hok.
  unfold thread_ok in Hok. rewrite Hpc, Hreq in Hok.
  destruct Hok as [[_ [ce Hres]] | [(e & _ & Hres) | (dos & Hlog & Hdos & Hres)]];
    try discriminate.
  destruct Hres as [(e & Hres & _) | (dos' & rep & derr & v0 & v1 & -> & Hat & Hres)];
    [discriminate|].
  simpl in Hat, Hres, Hlog, Hdos. unfold Get_attempt in Hat.
  rewrite Hpre in *.
  destruct (redis_Bytes rep derr) as [v2 e2] eqn:Hb.
  injection Hat as -> He2.
  destruct e2 as [e2|]; [by apply retryErr_not_nil in He2|].
  apply redis_Bytes_ok in Hb as [-> Hrep].
  injection Hres as ->.
  apply Forall_app in Hdos as [Hdos _].
  exists dos', rep, v1.
  split; [rewrite Hlog; do 2 f_equal; by rewrite <- app_assoc|].
  split; [|done]. eapply Forall_impl; [exact Hdos|].
  intros ev (rep' & err' & ->). exists rep', err'. simpl. by rewrite Hpre.
Qed.

(** ** Order of the gate and the lease *)

Lemma index_of_dos (c : Client) (cl : call) (p : event → bool)
    (dos l : list event) :
  (∀ cmd args rep err, p (EvDo cmd args rep err) = false) →
  Forall (is_do c cl) dos →
  index_of p (dos ++ l) = (λ n, (length dos + n)%nat) <$> index_of p l.
Proof.
  intros Hp. induction 1 as [|ev dos (rep & err & ->) _ IH]; simpl.
  - by destruct (index_of p l).
  - rewrite Hp, IH. by destruct (index_of p l).
Qed.

(** The slot is taken before the pool is asked for a connection. *)
Lemma slot_before_lease (c : Client) (t : thread) (n : nat) :
  thread_ok c t → index_of is_pool_get (log t) = Some n →
  index_of is_send (log t) = Some 0%nat ∧ n = 1%nat.
Proof.
  unfold thread_ok. destruct (at_pc t).
  - by intros ->.
  - by intros ->.
  - intros ->. simpl. by intros [= <-].
  - intros (dos & -> & _). simpl. by intros [= <-].
  - intros (dos & -> & _). simpl. by intros [= <-].
  - intros (dos & -> & _). simpl. by intros [= <-].
  - intros (dos & -> & _). simpl. by intros [= <-].
  - intros [[-> _] | [(e & -> & _) | (dos & -> & _)]]; simpl;
      try done; by intros [= <-].
Qed.

(** Close gives the slot back first and the connection after it: in the
    log the receive from the channel is right before Conn.Close. *)
Lemma slot_released_before_conn (c : Client) (t : thread) (n : nat) :
  thread_ok c t → index_of is_close (log t) = Some n →
  ∃ m, index_of is_recv (log t) = Some m ∧ n = S m.
Proof.
  unfold thread_ok. destruct (at_pc t).
  - by intros ->.
  - by intros ->.
  - by intros ->.
  - intros (dos & -> & Hdos). simpl.
    rewrite <- (app_nil_r dos), (index_of_dos c (req t)); done.
  - intros (dos & -> & Hdos). simpl.
    rewrite <- (app_nil_r dos), (index_of_dos c (req t)); done.
  - intros (dos & -> & Hdos & _). simpl.
    rewrite <- (app_nil_r dos), (index_of_dos c (req t)); done.
  - intros (dos & -> & Hdos & _). simpl.
    rewrite (index_of_dos c (req t)); done.
  - intros [[-> _] | [(e & -> & _) | (dos & -> & Hdos & _)]]; try done.
    simpl. rewrite !(index_of_dos c (req t)) by done. simpl.
    intros [= <-]. eexists. split; [done|]. lia.
Qed.

(** ** A failed lease *)

(** C10: when the slot has been taken and pool.GetContext fails with [e],
    the call gives the slot back and returns [e]: the length of the
    channel and the slots in use are what they were before the call took
    its slot, and any call waiting at the select can take a slot. *)
Theorem failed_lease_releases_slot (c : Client) (st : state) (i : nat)
    (t : thread) (e : errval) :
  reachable c st → threads st !! i = Some t → at_pc t = AtSelect →
  Z.of_nat (sema_len st) < sema_cap c →
  ∃ st' t',
    run c st [Run i InSelectSend; Run i (InPool (Some e)); Run i InNext]
      = Some st' ∧
    threads st' !! i = Some t' ∧
    at_pc t' = Returned (None, Some (Plain e)) ∧
    log t' = [EvSemaSend; EvPoolGet (Some e); EvSemaRecv] ∧
    sema_len st' = sema_len st ∧
    slots_in_use st' = slots_in_use st ∧
    (∀ j tj, threads st' !! j = Some tj → at_pc tj = AtSelect →
             is_Some (exec c st' (Run j InSelectSend))).
Proof.
  intros Hr Hi Hpc Hroom.
  pose proof (reachable_thread_ok c st i t Hr Hi) as Hok.
  unfold thread_ok in Hok. rewrite Hpc in Hok.
  assert (Hlt : (i < length (threads st))%nat) by (by eapply lookup_lt_Some).
  pose proof Hroom as Hroomb. apply Z.ltb_lt in Hroomb.
  set (l := [Run i InSelectSend; Run i (InPool (Some e)); Run i InNext]).
  assert (Hrun : run c st l =
    Some {| sema_len := sema_len st;
            threads := <[i:=emit (emit (emit t AtPoolGet EvSemaSend)
                                    (AtLeaseFailed e) (EvPoolGet (Some e)))
                              (Returned (None, Some (Plain e))) EvSemaRecv]>
                         (threads st) |}).
  { unfold l, run, exec. unfold_step. rewrite Hi, Hpc, Hroomb.
    cbn [threads sema_len]. rewrite list_lookup_insert_eq by done.
    cbn [emit at_pc threads sema_len].
    rewrite list_lookup_insert_eq by (by rewrite length_insert).
    cbn [emit at_pc threads sema_len]. by rewrite !list_insert_insert_eq. }
  eexists _, _. split; [exact Hrun|]. cbn [threads sema_len].
  split; [by apply list_lookup_insert_eq|].
  split; [done|]. split; [simpl; by rewrite Hok|]. split; [done|].
  assert (Hinv' : inv c {| sema_len := sema_len st;
            threads := <[i:=emit (emit (emit t AtPoolGet EvSemaSend)
                                    (AtLeaseFailed e) (EvPoolGet (Some e)))
                              (Returned (None, Some (Plain e))) EvSemaRecv]>
                         (threads st) |}).
  { eapply run_inv; [|exact Hrun]. by apply reachable_inv. }
  split.
  - destruct Hinv' as [_ Hs']. destruct (reachable_inv c st Hr) as [_ Hs].
    rewrite Hs', Hs. done.
  - intros j tj Hj Hpcj. unfold exec. unfold_step. cbn [threads sema_len].
    rewrite Hj, Hpcj, Hroomb. done.
Qed.

(** ** The request parser of the fake server *)

Section ParserProofs.
Context {R : Type} `{LineReader R}.

Lemma readElements_S (k : nat) (line : string) (r : R) :
  readElements (S k) line r =
    let '((nline, _, err), r1) := ReadLine r in
    match err with
    | Some e => ((line, Some (ReadError e)), r1)
    | None =>
        let line1 := String.append (String.append line LF) nline in
        if negb (String.prefix "$" nline) then readElements k line1 r1
        else
          match Atoi (drop1 nline) with
          | inr e => ((line1, Some (WrongBytes nline e)), r1)
          | inl sz =>
              let '((nline2, _, err2), r2) := ReadLine r1 in
              match err2 with
              | Some e => ((line1, Some (ReadError e)), r2)
              | None =>
                  let line2 :=
                    String.append (String.append line1 LF) nline2 in
                  if negb (sz =? len nline2)
                  then ((line2, Some (UnexpectedValue sz nline2)), r2)
                  else readElements k line2 r2
              end
          end
    end.
Proof. reflexivity. Qed.

(** One good element is read as one iteration of the loop. *)
Lemma readElements_element (k : nat) (line : string) (r r1 : R) :
  read_element r r1 → ∃ line1, readElements (S k) line r = readElements k line1 r1.
Proof.
  intros Hel. rewrite readElements_S.
  destruct Hel as [r nline b r1 Hrd Hpre | r nline b r1 sz nline2 b2 r2 Hrd Hpre Hsz Hrd2 Hlen].
  - rewrite Hrd, Hpre. simpl. eauto.
  - rewrite Hrd, Hpre, Hsz, Hrd2. simpl.
    subst sz. rewrite Z.eqb_refl. simpl. eauto.
Qed.

(** The loop succeeds exactly when it finds [k] good elements, and then
    it stops right after them. *)
Lemma readElements_ok (k : nat) (line : string) (r r' : R) :
  (∃ line', readElements k line r = ((line', None), r')) ↔ read_elements k r r'.
Proof.
  split.
  - revert line r. induction k as [|k IH]; intros line r [line' Hrd].
    + injection Hrd as _ <-. constructor.
    + rewrite readElements_S in Hrd.
      destruct (ReadLine r) as [[[nline b] [e|]] r1] eqn:Hr1; [discriminate|].
      destruct (String.prefix "$" nline) eqn:Hpre; simpl in Hrd.
      * destruct (Atoi (drop1 nline)) as [sz|] eqn:Hsz; [|discriminate].
        destruct (ReadLine r1) as [[[nline2 b2] [e|]] r2] eqn:Hr2;
          [discriminate|].
        destruct (sz =? len nline2) eqn:Hlen; simpl in Hrd; [|discriminate].
        apply Z.eqb_eq in Hlen.
        eapply read_elements_S; [by eapply read_element_bulk | by eapply IH; eauto].
      * eapply read_elements_S; [by eapply read_element_plain | by eapply IH; eauto].
  - intros Hels. revert line.
    induction Hels as [r | k r r1 r2 Hel _ IH]; intros line.
    + by exists line.
    + destruct (readElements_element k line r r1 Hel) as [line1 ->].
      apply IH.
Qed.

(** A wrong declared length makes the loop fail. *)
Lemma readElements_mismatch (k j : nat) (line : string) (r rj : R) :
  (j < k)%nat → read_elements j r rj → read_mismatched rj →
  ∃ line' sz v r2,
    readElements k line r = ((line', Some (UnexpectedValue sz v)), r2) ∧
    sz ≠ len v.
Proof.
  intros Hjk Hels. revert k line Hjk.
  induction Hels as [r | j r r1 r2 Hel _ IH]; intros k line Hjk Hmis.
  - destruct k as [|k]; [lia|]. rewrite readElements_S.
    destruct Hmis as (nline & b & r1 & sz & nline2 & b2 & r2 &
                      Hr1 & Hpre & Hsz & Hr2 & Hne).
    rewrite Hr1, Hpre, Hsz, Hr2. simpl.
    apply Z.eqb_neq in Hne as Hneb. rewrite Hneb. simpl. eauto 10.
  - destruct k as [|k]; [lia|].
    destruct (readElements_element k line r r1 Hel) as [line1 ->].
    apply IH; [lia | done].
Qed.

(** The framing in terms of what ReadLine hands back, for any reader: a
    first result without "*" is the request; for "*<n>" the parser
    succeeds exactly when [n] elements as the loop takes them follow, and
    a header followed by a result of another length gives an error, on
    which [handle] answers nothing and returns. *)
Lemma readRequest_read_frames (r : R) (nline : string) (b : bool) (r1 : R) :
  ReadLine r = ((nline, b, None), r1) →
  (String.prefix "*" nline = false → readRequest r = ((nline, None), r1)) ∧
  (∀ n, String.prefix "*" nline = true → Atoi (drop1 nline) = inl n →
     (∀ r', (∃ line, readRequest r = ((line, None), r')) ↔
            read_elements (Z.to_nat n) r1 r') ∧
     (∀ j rj, (j < Z.to_nat n)%nat → read_elements j r1 rj →
        read_mismatched rj →
        ∃ line sz v r2,
          readRequest r = ((line, Some (UnexpectedValue sz v)), r2) ∧
          sz ≠ len v ∧
          ∀ fuel written, handle (S fuel) r written = Some written)).
Proof.
  intros Hr1. split.
  - intros Hpre. unfold readRequest. by rewrite Hr1, Hpre.
  - intros n Hpre Hn.
    assert (Hreq : readRequest r = readElements (Z.to_nat n) nline r1).
    { unfold readRequest. by rewrite Hr1, Hpre, Hn. }
    split.
    + intros r'. rewrite Hreq. apply readElements_ok.
    + intros j rj Hj Hels Hmis.
      destruct (readElements_mismatch (Z.to_nat n) j nline r1 rj Hj Hels Hmis)
        as (line & sz & v & r2 & Hrd & Hne).
      exists line, sz, v, r2. rewrite Hreq. split; [done|]. split; [done|].
      intros fuel written. simpl. by rewrite Hreq, Hrd.
Qed.
End ParserProofs.

(** ** The reader of the connection and the lines of the input *)

Lemma cut_line_within_fits (n : nat) (s l rest : string) :
  cut_line s = Some (l, rest) → (String.length l < n)%nat →
  cut_line_within n s = Some (l, rest).
Proof.
  revert n l. induction s as [|ch s IH]; intros n l Hc Hn; [discriminate|].
  simpl in Hc. destruct n as [|n]; [lia|]. simpl.
  destruct (Ascii.eqb ch (ascii_of_nat 10)); [done|].
  destruct (cut_line s) as [[l0 rest0]|] eqn:Hs; [|discriminate].
  injection Hc as <- <-. simpl in Hn. rewrite (IH n l0); [done | done | lia].
Qed.

Lemma cut_line_within_none (n : nat) (s : string) :
  cut_line s = None → cut_line_within n s = None.
Proof.
  revert n. induction s as [|ch s IH]; intros n Hc; [by destruct n|].
  simpl in Hc. destruct n as [|n]; [done|]. simpl.
  destruct (Ascii.eqb ch (ascii_of_nat 10)); [done|].
  destruct (cut_line s) as [[l0 rest0]|] eqn:Hs; [discriminate|].
  by rewrite IH.
Qed.

Lemma cut_line_within_cut (n : nat) (s l rest : string) :
  cut_line_within n s = Some (l, rest) →
  cut_line s = Some (l, rest) ∧ (String.length l < n)%nat.
Proof.
  revert n l. induction s as [|ch s IH]; intros n l Hc; [by destruct n|].
  destruct n as [|n]; [done|]. simpl in *.
  destruct (Ascii.eqb ch (ascii_of_nat 10)).
  - injection Hc as <- <-. simpl. split; [done | lia].
  - destruct (cut_line_within n s) as [[l0 rest0]|] eqn:Hs; [|discriminate].
    injection Hc as <- <-. destruct (IH n l0 ltac:(done)) as [Hc Hl]; rewrite ?Hc.
    simpl. split; [done | lia].
Qed.

Lemma cut_line_length (s l rest : string) :
  cut_line s = Some (l, rest) →
  String.length s = (String.length l + 1 + String.length rest)%nat.
Proof.
  revert l. induction s as [|ch s IH]; intros l Hc; [discriminate|].
  simpl in Hc. destruct (Ascii.eqb ch (ascii_of_nat 10)).
  - injection Hc as <- <-. simpl. lia.
  - destruct (cut_line s) as [[l0 rest0]|] eqn:Hs; [|discriminate].
    injection Hc as <- <-. simpl. rewrite (IH l0 ltac:(done)). lia.
Qed.

Lemma short_lines_cut (size cur : nat) (s l rest : string) :
  short_lines_from size cur s = true → cut_line s = Some (l, rest) →
  (cur + String.length l < size)%nat ∧ short_lines_from size 0 rest = true.
Proof.
  revert cur l. induction s as [|ch s IH]; intros cur l Hs Hc; [discriminate|].
  simpl in Hs, Hc. destruct (Ascii.eqb ch (ascii_of_nat 10)).
  - injection Hc as <- <-. apply andb_true_iff in Hs as [Hcur Hs].
    apply Nat.ltb_lt in Hcur. simpl. split; [lia | done].
  - destruct (cut_line s) as [[l0 rest0]|] eqn:Hs0; [|discriminate].
    injection Hc as <- <-. destruct (IH (S cur) l0 ltac:(done) ltac:(done)) as [Hl Hr].
    simpl. split; [lia | done].
Qed.

Lemma short_lines_end (size cur : nat) (s : string) :
  short_lines_from size cur s = true → cut_line s = None →
  (cur + String.length s < size)%nat.
Proof.
  revert cur. induction s as [|ch s IH]; intros cur Hs Hc; simpl in *.
  - apply Nat.ltb_lt in Hs. lia.
  - destruct (Ascii.eqb ch (ascii_of_nat 10)); [discriminate|].
    destruct (cut_line s) as [[l0 rest0]|] eqn:Hs0; [discriminate|].
    specialize (IH (S cur) ltac:(done) ltac:(done)). lia.
Qed.

(** On input whose lines fit the buffer, ReadLine hands back the lines
    of the input, one by one and whole, and io.EOF after the last. *)
Lemma bufio_ReadLine_short (size : nat) (s : string) :
  short_lines_from size 0 s = true →
  bufio_ReadLine size s =
    match next_line s with
    | Some (l, rest) => ((l, false, None), rest)
    | None => ((EmptyString, false, Some EOF), EmptyString)
    end ∧
  ∀ l rest, next_line s = Some (l, rest) → short_lines_from size 0 rest = true.
Proof.
  intros Hs. unfold bufio_ReadLine, next_line.
  destruct (cut_line s) as [[l rest]|] eqn:Hc.
  - destruct (short_lines_cut size 0 s l rest Hs Hc) as [Hl Hrest].
    rewrite (cut_line_within_fits size s l rest Hc) by lia.
    split; [by destruct s|]. by intros l' rest' [= <- <-].
  - pose proof (short_lines_end size 0 s Hs Hc) as Hl.
    rewrite (cut_line_within_none size s Hc).
    destruct s as [|ch s]; [split; [done|]; by intros ? ? ?|].
    apply Nat.ltb_lt in Hl as Hb. rewrite Nat.add_0_l in Hb. rewrite Hb.
    split; [done|]. intros l' rest' [= <- <-]. simpl.
    destruct size; [lia | done].
Qed.

Lemma ReadLine_short (s l rest : string) :
  short_lines s = true → next_line s = Some (l, rest) →
  ReadLine s = ((l, false, None), rest) ∧ short_lines rest = true.
Proof.
  intros Hs Hn. destruct (bufio_ReadLine_short defaultBufSize s Hs) as [Hr Hrest].
  rewrite Hn in Hr. split; [exact Hr | by eapply Hrest].
Qed.

Lemma ReadLine_short_inv (s l : string) (b : bool) (rest : string) :
  short_lines s = true → ReadLine s = ((l, b, None), rest) →
  next_line s = Some (l, rest) ∧ short_lines rest = true.
Proof.
  intros Hs Hr. destruct (bufio_ReadLine_short defaultBufSize s Hs) as [Hr' Hrest].
  change (ReadLine s) with (bufio_ReadLine defaultBufSize s) in Hr.
  rewrite Hr' in Hr. destruct (next_line s) as [[l' rest']|] eqn:Hn;
    [|discriminate].
  injection Hr as <- _ <-. split; [done | by eapply Hrest].
Qed.

(** On such input the elements the loop takes are the elements of the
    request, line by line. *)
Lemma read_element_short (s s' : string) :
  short_lines s = true →
  (read_element s s' ↔ element s s') ∧ (element s s' → short_lines s' = true).
Proof.
  intros Hs. split; [split|].
  - intros Hel. inversion Hel as [r nline b r1 Hr Hp | r nline b r1 sz nline2 b2 r2 Hr Hp Hsz Hr2 Hlen]; subst.
    + destruct (ReadLine_short_inv _ _ _ _ Hs Hr) as [Hn _].
      by eapply element_plain.
    + destruct (ReadLine_short_inv _ _ _ _ Hs Hr) as [Hn Hs1].
      destruct (ReadLine_short_inv _ _ _ _ Hs1 Hr2) as [Hn2 _].
      by eapply element_bulk.
  - intros Hel. inversion Hel as [r nline r1 Hn Hp | r nline r1 sz nline2 r2 Hn Hp Hsz Hn2 Hlen]; subst.
    + destruct (ReadLine_short _ _ _ Hs Hn) as [Hr _].
      by eapply read_element_plain.
    + destruct (ReadLine_short _ _ _ Hs Hn) as [Hr Hs1].
      destruct (ReadLine_short _ _ _ Hs1 Hn2) as [Hr2 _].
      by eapply read_element_bulk.
  - intros Hel. inversion Hel as [r nline r1 Hn Hp | r nline r1 sz nline2 r2 Hn Hp Hsz Hn2 Hlen]; subst.
    + by destruct (ReadLine_short _ _ _ Hs Hn) as [_ ?].
    + destruct (ReadLine_short _ _ _ Hs Hn) as [_ Hs1].
      by destruct (ReadLine_short _ _ _ Hs1 Hn2) as [_ ?].
Qed.

Lemma elements_short (k : nat) (s s' : string) :
  short_lines s = true → elements k s s' → short_lines s' = true.
Proof.
  intros Hs Hels. induction Hels as [s | k s s1 s2 Hel _ IH]; [done|].
  apply IH. by apply (read_element_short s s1).
Qed.

Lemma read_elements_short (k : nat) (s s' : string) :
  short_lines s = true → read_elements k s s' ↔ elements k s s'.
Proof.
  intros Hs. split.
  - intros Hels. induction Hels as [s | k s s1 s2 Hel _ IH]; [constructor|].
    destruct (read_element_short s s1 Hs) as [Hiff Hs1].
    apply Hiff in Hel. eapply elements_S; [exact Hel | by apply IH, Hs1].
  - intros Hels. induction Hels as [s | k s s1 s2 Hel _ IH]; [constructor|].
    destruct (read_element_short s s1 Hs) as [Hiff Hs1].
    eapply read_elements_S; [by apply Hiff | by apply IH, Hs1].
Qed.

Lemma read_mismatched_short (s : string) :
  short_lines s = true → mismatched s → read_mismatched s.
Proof.
  intros Hs (nline & s1 & sz & nline2 & s2 & Hn & Hp & Hsz & Hn2 & Hne).
  destruct (ReadLine_short _ _ _ Hs Hn) as [Hr Hs1].
  destruct (ReadLine_short _ _ _ Hs1 Hn2) as [Hr2 _].
  by exists nline, false, s1, sz, nline2, false, s2.
Qed.


(** ** Concrete runs *)

Lemma busy_reachable : reachable demo_client busy_state.
Proof. by exists busy_run. Qed.

Lemma done_reachable : reachable demo_client done_state.
Proof. by exists done_run. Qed.

Lemma closing_reachable : reachable demo_client closing_state.
Proof. by exists closing_run. Qed.

Lemma slots_in_use_le_max_witness :
  NewClient "localhost:6379" demo_opts = Some demo_client ∧
  reachable demo_client busy_state ∧
  Z.of_nat (slots_in_use busy_state) ≤ MaxActiveConns demo_opts.
Proof.
  split; [reflexivity|]. split; [exact busy_reachable|].
  apply (slots_in_use_le_max "localhost:6379" demo_opts demo_client busy_state);
    [reflexivity | exact busy_reachable].
Defined.




Lemma Get_success_response_witness :
  NewClient "localhost:6379" demo_opts = Some demo_client ∧
  reachable demo_client done_state ∧
  threads done_state !! 0%nat = Some done_get ∧
  req done_get = CallGet {| GetReq_Key := "k" |} ∧
  at_pc done_get = Returned (Some done_resp, None) ∧
  ∃ dos rep val,
    log done_get = EvSemaSend :: EvPoolGet None ::
              dos ++ [EvDo "GET" [String.append (Prefix demo_opts) "k"]
                        rep None; EvSemaRecv; EvConnClose] ∧
    Forall (λ ev, ∃ rep' err',
              ev = EvDo "GET" [String.append (Prefix demo_opts) "k"]
                     rep' err') dos ∧
    (rep = ReplyBulk val ∨ rep = ReplyStatus val) ∧
    done_resp = RespGet {| GetResp_Kv := {| Key := "k"; Value := val |};
                           InMemory := true |}.
Proof.
  split; [reflexivity|]. split; [exact done_reachable|].
  split; [reflexivity|]. split; [reflexivity|]. split; [reflexivity|].
  exact (Get_success_response "localhost:6379" demo_opts demo_client
           done_state 0 done_get "k" done_resp eq_refl done_reachable
           eq_refl eq_refl eq_refl).
Defined.

Lemma idle_reachable : reachable demo_client idle_state.
Proof. by exists [Call get_k]. Qed.

Lemma failed_lease_releases_slot_witness :
  reachable demo_client idle_state ∧
  threads idle_state !! 0%nat = Some (new_thread get_k) ∧
  at_pc (new_thread get_k) = AtSelect ∧
  Z.of_nat (sema_len idle_state) < sema_cap demo_client ∧
  ∃ st' t',
    run demo_client idle_state
      [Run 0 InSelectSend; Run 0 (InPool (Some pool_exhausted)); Run 0 InNext]
      = Some st' ∧
    threads st' !! 0%nat = Some t' ∧
    at_pc t' = Returned (None, Some (Plain pool_exhausted)) ∧
    log t' = [EvSemaSend; EvPoolGet (Some pool_exhausted); EvSemaRecv] ∧
    sema_len st' = sema_len idle_state ∧
    slots_in_use st' = slots_in_use idle_state ∧
    (∀ j tj, threads st' !! j = Some tj → at_pc tj = AtSelect →
             is_Some (exec demo_client st' (Run j InSelectSend))).
Proof.
  split; [exact idle_reachable|]. split; [reflexivity|].
  split; [reflexivity|]. split; [simpl; lia|].
  apply (failed_lease_releases_slot demo_client idle_state 0
           (new_thread get_k) pool_exhausted idle_reachable eq_refl eq_refl).
  simpl; lia.
Defined.

(** C7, the order at Close: with MaxActiveConns = 1 a first Get has given
    its slot back (its log ends with the receive from the channel) while
    its connection is still leased, and a second Get already holds the
    slot and asks the pool, whose one connection is out.  When the first
    Get has returned, its log has the receive before Conn.Close. *)
Theorem close_returns_slot_before_conn :
  (∃ st t0 t1,
     run demo_client init race_run = Some st ∧
     threads st !! 0%nat = Some t0 ∧ threads st !! 1%nat = Some t1 ∧
     log t0 = [EvSemaSend; EvPoolGet None;
               EvDo "GET" ["goma:k"] (ReplyBulk "v") None; EvSemaRecv] ∧
     slots_held t0 = 0%nat ∧ leases_held t0 = 1%nat ∧
     at_pc t1 = AtPoolGet ∧
     slots_in_use st = 1%nat ∧
     Z.of_nat (leases_out st) = MaxActive (pool demo_client)) ∧
  index_of is_recv (log done_get) = Some 4%nat ∧
  index_of is_close (log done_get) = Some 5%nat.
Proof.
  split; [|split; reflexivity].
  eexists _, _, _. split; [vm_compute; reflexivity|].
  split; [reflexivity|]. split; [reflexivity|]. repeat split.
Qed.

(** The order in every call, whatever the other calls do: the slot is
    taken before the pool is asked, and at Close the slot is given back
    right before the connection. *)
Lemma gate_lease_order (c : Client) (st : state) (i : nat) (t : thread) :
  reachable c st → threads st !! i = Some t →
  (∀ n, index_of is_pool_get (log t) = Some n →
        ∃ m, index_of is_send (log t) = Some m ∧ (m < n)%nat) ∧
  (∀ n, index_of is_close (log t) = Some n →
        ∃ m, index_of is_recv (log t) = Some m ∧ (m < n)%nat).
Proof.
  intros Hr Hi. pose proof (reachable_thread_ok c st i t Hr Hi) as Hok. split.
  - intros n Hn. destruct (slot_before_lease c t n Hok Hn) as [Hs ->].
    exists 0%nat. split; [done | lia].
  - intros n Hn. destruct (slot_released_before_conn c t n Hok Hn) as (m & Hm & ->).
    exists m. split; [done | lia].
Qed.


(** C9, as stated, fails: a line of 4100 bytes follows a header that
    declares 4096, and the parser returns no error.  The reader hands it
    the first 4096 bytes of the line, whose length is the declared one;
    the last four bytes stay unread and are taken for a request of their
    own, so [handle] answers twice. *)
Lemma long_line_length_not_checked :
  next_line long_request = Some ("*1", on_wire ["$4096"; long_line]) ∧
  mismatched (on_wire ["$4096"; long_line]) ∧
  len long_line = 4100 ∧
  (readRequest long_request).1.2 = None ∧
  (readRequest long_request).2 = on_wire ["aaaa"] ∧
  handle 3 long_request [] = Some [canned; canned].
Proof.
  split; [reflexivity|]. split.
  - exists "$4096", (on_wire [long_line]), 4096, long_line, EmptyString.
    split; [reflexivity|]. split; [reflexivity|]. split; [reflexivity|].
    split; [vm_compute; reflexivity|]. vm_compute. discriminate.
  - split; [vm_compute; reflexivity|]. split; [vm_compute; reflexivity|].
    split; vm_compute; reflexivity.
Qed.

(** * Further properties of the code *)

(** ** AddrFromEnv *)

(** X1: AddrFromEnv fails exactly when REDISHOST is not set or empty, which
    it does not tell apart; otherwise the address is host:port, where a
    REDISPORT that is not set or empty stands for 6379, so the port part
    is never empty. *)
Theorem AddrFromEnv_spec (env : gmap string string) :
  (Getenv env "REDISHOST" = "" →
     (AddrFromEnv env).1 = "" ∧ is_Some (AddrFromEnv env).2) ∧
  (Getenv env "REDISHOST" ≠ "" →
     ∃ port, port ≠ "" ∧
       AddrFromEnv env =
         (String.append (Getenv env "REDISHOST") (String.append ":" port),
          None) ∧
       (Getenv env "REDISPORT" = "" → port = "6379") ∧
       (Getenv env "REDISPORT" ≠ "" → port = Getenv env "REDISPORT")).
Proof.
  unfold AddrFromEnv. split.
  - intros ->. simpl. eauto.
  - intros Hhost. apply String.eqb_neq in Hhost as Hb. rewrite Hb.
    destruct (String.eqb (Getenv env "REDISPORT") "") eqn:Hp.
    + apply String.eqb_eq in Hp. exists "6379". by rewrite Hp.
    + apply String.eqb_neq in Hp. by exists (Getenv env "REDISPORT").
Qed.

Lemma AddrFromEnv_spec_witness :
  AddrFromEnv ∅ = ("", Some (ErrVal (OtherType false None)
                               "no REDISHOST environment" None)) ∧
  ∃ port, port ≠ "" ∧
    AddrFromEnv {["REDISHOST" := "10.0.0.3"]} =
      (String.append "10.0.0.3" (String.append ":" port), None) ∧
    port = "6379".
Proof.
  split; [reflexivity|].
  destruct (proj2 (AddrFromEnv_spec {["REDISHOST" := "10.0.0.3"]}))
    as (port & Hne & Haddr & Hdef & _); [discriminate|].
  exists port. split; [exact Hne|]. split; [exact Haddr|].
  apply Hdef. reflexivity.
Defined.

(** ** The classifier looks at the outermost value only *)

(** X2: retryErr asserts types, it does not search the chain of wrapped
    errors: an error [x] that does not match redis.ErrNil, wrapped in a
    value that does not report itself temporary, comes back unchanged
    when the wrapper is of some other type, a bare *os.SyscallError, a
    *net.OpError around a *net.OpError, or a *net.OpError around two
    *os.SyscallError, whatever [x] is. *)
Theorem retryErr_no_deep_unwrap (x : errval) (m m' : string)
    (t t' : option bool) :
  errors_Is_ErrNil x = false → t ≠ Some true →
  let plain e := retryErr (Some e) = Some (Plain e) in
  plain (ErrVal (OtherType false (Some x)) m t) ∧
  plain (ErrVal (OsSyscallError (Some x)) m t) ∧
  plain (ErrVal (NetOpError (Some (ErrVal (NetOpError (Some x)) m' t'))) m t) ∧
  plain (ErrVal (NetOpError (Some (ErrVal (OsSyscallError
           (Some (ErrVal (OsSyscallError (Some x)) m' t'))) m' t'))) m t).
Proof.
  intros Hx Ht. unfold retryErr. simpl. rewrite Hx.
  destruct t as [[]|]; done.
Qed.

Lemma retryErr_no_deep_unwrap_witness :
  retryErr (Some reset_error) = Some (RetriableError reset_error) ∧
  retryErr (Some (ErrVal (OtherType false (Some reset_error)) "get k: reset" None))
    = Some (Plain (ErrVal (OtherType false (Some reset_error)) "get k: reset" None)).
Proof.
  split; [reflexivity|].
  apply (retryErr_no_deep_unwrap reset_error "get k: reset" "" None None);
    [reflexivity | discriminate].
Defined.

(** ** More invariants of the gate *)

Lemma filter_length_le_slots (c : Client) (ts : list thread) :
  Forall (thread_ok c) ts →
  (length (filter (λ t, in_flight (at_pc t) = true) ts)
   ≤ sum_list_with slots_held ts)%nat.
Proof.
  induction 1 as [|t ts Ht _ IH]; [done|]. simpl.
  rewrite (slots_held_pc c t Ht).
  destruct (in_flight (at_pc t)) eqn:Hf.
  - rewrite filter_cons_True by done. simpl.
    destruct (at_pc t); try discriminate; simpl; lia.
  - rewrite filter_cons_False by (by rewrite Hf). lia.
Qed.

(** X3: At any time at most MaxActiveConns calls are inside Retry.Do, that
    is, send commands on a connection. *)
Theorem in_flight_le_max (addr : string) (opts : Opts) (c : Client)
    (st : state) :
  NewClient addr opts = Some c → reachable c st →
  Z.of_nat (length (filter (λ t, in_flight (at_pc t) = true) (threads st)))
    ≤ MaxActiveConns opts.
Proof.
  intros Hnew Hr. apply NewClient_cap in Hnew as (Hcap & Hpos & _).
  pose proof (reachable_cap c st Hpos Hr) as Hle.
  destruct (reachable_inv c st Hr) as [Hts Hsum].
  pose proof (filter_length_le_slots c _ Hts) as Hf.
  unfold slots_in_use in Hsum. lia.
Qed.

Lemma in_flight_le_max_witness :
  NewClient "localhost:6379" demo_opts = Some demo_client ∧
  reachable demo_client closing_state ∧
  Z.of_nat (length (filter (λ t, in_flight (at_pc t) = true)
                      (threads closing_state)))
    ≤ MaxActiveConns demo_opts.
Proof.
  split; [reflexivity|]. split; [exact closing_reachable|].
  apply (in_flight_le_max "localhost:6379" demo_opts demo_client
           closing_state); [reflexivity | exact closing_reachable].
Defined.

(** X4: When every call has returned the channel is empty again: no slot is
    lost, however the calls ended. *)
Theorem quiescent_gate_empty (c : Client) (st : state) :
  reachable c st →
  Forall (λ t, is_returned (at_pc t) = true) (threads st) →
  sema_len st = 0%nat ∧ slots_in_use st = 0%nat ∧ leases_out st = 0%nat.
Proof.
  intros Hr Hret. destruct (reachable_inv c st Hr) as [Hts Hsum].
  rewrite <- Hsum. unfold slots_in_use, leases_out.
  assert (H0 : sum_list_with slots_held (threads st) = 0%nat ∧
               sum_list_with leases_held (threads st) = 0%nat).
  { clear Hsum Hr. induction Hts as [|t ts Ht _ IH]; [done|].
    apply Forall_cons in Hret as [Hrt Hret]. destruct (IH Hret) as [IH1 IH2].
    simpl. rewrite IH1, IH2, (slots_held_pc c t Ht), (leases_held_pc c t Ht).
    by destruct (at_pc t). }
  destruct H0 as [-> ->]. done.
Qed.

Lemma quiescent_gate_empty_witness :
  reachable demo_client done_state ∧
  Forall (λ t, is_returned (at_pc t) = true) (threads done_state) ∧
  sema_len done_state = 0%nat.
Proof.
  split; [exact done_reachable|].
  assert (Hret : Forall (λ t, is_returned (at_pc t) = true)
                   (threads done_state)).
  { repeat constructor. }
  split; [exact Hret|].
  exact (proj1 (quiescent_gate_empty demo_client done_state done_reachable
                  Hret)).
Defined.

(** ** A gate of capacity 0 *)

Lemma empty_log_pc (c : Client) (t : thread) :
  thread_ok c t → log t = [] →
  at_pc t = AtSelect ∨
  ∃ ce, at_pc t = Returned (None, Some (Plain (ctx_Err ce))).
Proof.
  unfold thread_ok. intros Hok Hlog. rewrite Hlog in Hok.
  destruct (at_pc t) as [| |e| | |res|res|res]; try discriminate; auto.
  - by destruct Hok as (dos & ? & _).
  - by destruct Hok as (dos & ? & _).
  - by destruct Hok as (dos & ? & _).
  - destruct Hok as (dos & Hd & _). by destruct dos.
  - destruct Hok as [[_ [ce ->]] | [(e & ? & _) | (dos & Hd & _)]];
      [eauto | done | by destruct dos].
Qed.

Lemma exec_empty_logs (c : Client) (st st' : state) (a : action) :
  sema_cap c = 0 → inv c st → Forall (λ t, log t = []) (threads st) →
  exec c st a = Some st' → Forall (λ t, log t = []) (threads st').
Proof.
  intros Hcap Hinv Hlogs Hex. destruct a as [cl | i inp | i j].
  - injection Hex as <-. simpl. apply Forall_app. split; [done|].
    by apply Forall_singleton.
  - unfold exec in Hex.
    destruct (threads st !! i) as [t|] eqn:Hi; [|discriminate].
    assert (Hlog : log t = []) by (by eapply (Forall_lookup_1 _ _ _ _ Hlogs)).
    assert (Hok : thread_ok c t).
    { destruct Hinv as [Hts _]. by eapply Forall_lookup_1. }
    destruct (thread_step c inp t) as [[t' op]|] eqn:Hstep; [|discriminate].
    assert (Hlog' : op = SemaNone → log t' = []).
    { intros ->. revert Hstep. unfold_step.
      destruct (empty_log_pc c t Hok Hlog) as [Hpc | [ce Hpc]]; rewrite Hpc;
        destruct inp as [?| | |[?|]|? ?| |]; try discriminate;
        destruct (ctx t); try discriminate; by intros [= <-]. }
    destruct op.
    + injection Hex as <-. simpl. apply Forall_insert; auto.
    + rewrite Hcap in Hex.
      destruct (Z.of_nat (sema_len st) <? 0) eqn:Hlt; [|discriminate].
      apply Z.ltb_lt in Hlt. lia.
    + apply thread_step_sema in Hstep. destruct Hstep as [Hh _].
      pose proof (slots_held_pc c t Hok) as Hs. rewrite Hh in Hs.
      unfold slots_held in Hs. rewrite Hlog in Hs. discriminate.
  - by rewrite no_handoff in Hex.
Qed.

Lemma run_empty_logs (c : Client) (l : list action) (st st' : state) :
  sema_cap c = 0 → inv c st → Forall (λ t, log t = []) (threads st) →
  run c st l = Some st' → Forall (λ t, log t = []) (threads st').
Proof.
  intros Hcap. revert st. induction l as [|a l IH]; intros st Hinv Hl Hrun;
    simpl in Hrun.
  - by injection Hrun as <-.
  - destruct (exec c st a) as [st1|] eqn:Hex; [|discriminate].
    eapply (IH st1); [by eapply exec_inv | by eapply exec_empty_logs | done].
Qed.

(** X5: With MaxActiveConns = 0 the channel has no buffer and nobody ever
    receives from it first, so no call gets past the select: no call
    touches the pool or the backend, and a call returns only with the
    error of its context. *)
Theorem zero_capacity_admits_nobody (addr : string) (opts : Opts)
    (c : Client) (st : state) (i : nat) (t : thread) :
  NewClient addr opts = Some c → MaxActiveConns opts = 0 →
  reachable c st → threads st !! i = Some t →
  log t = [] ∧ sema_len st = 0%nat ∧
  (at_pc t = AtSelect ∨
   ∃ ce, at_pc t = Returned (None, Some (Plain (ctx_Err ce)))) ∧
  exec c st (Run i InSelectSend) = None.
Proof.
  intros Hnew H0 Hr Hi. apply NewClient_cap in Hnew as (Hcap & Hpos & _).
  rewrite H0 in Hcap. pose proof (reachable_cap c st Hpos Hr) as Hle.
  pose proof (reachable_thread_ok c st i t Hr Hi) as Hok.
  destruct Hr as [l Hl].
  assert (Hlog : log t = []).
  { eapply (Forall_lookup_1 (λ t, log t = [])); [|exact Hi].
    eapply run_empty_logs; [exact Hcap | apply init_inv | constructor | exact Hl]. }
  split; [done|]. split; [lia|]. split; [by apply (empty_log_pc c)|].
  unfold exec. rewrite Hi.
  destruct (thread_step c InSelectSend t) as [[t' [| |]]|] eqn:Hstep; try done.
  - revert Hstep. unfold_step. by destruct (at_pc t).
  - rewrite Hcap. destruct (Z.of_nat (sema_len st) <? 0) eqn:Hlt; [|done].
    apply Z.ltb_lt in Hlt. lia.
  - revert Hstep. unfold_step. by destruct (at_pc t).
Qed.

(** ** The pool and the backend are used under a slot only *)

Lemma count_ev_take_dos (c : Client) (cl : call) (p : event → bool)
    (dos : list event) (n : nat) :
  (∀ cmd args rep err, p (EvDo cmd args rep err) = false) →
  Forall (is_do c cl) dos → count_ev p (take n dos) = 0%nat.
Proof.
  intros Hp Hdos. apply (count_ev_dos c cl); [done|]. by apply Forall_take.
Qed.

Lemma within_slot_shape (c : Client) (cl : call) (o : option errval)
    (dos tail : list event) (n : nat) (ev : event) :
  Forall (is_do c cl) dos →
  Forall (λ ev, is_pool_or_do ev = false) tail →
  (EvSemaSend :: EvPoolGet o :: dos ++ tail) !! n = Some ev →
  is_pool_or_do ev = true →
  count_ev is_send (take n (EvSemaSend :: EvPoolGet o :: dos ++ tail)) = 1%nat ∧
  count_ev is_recv (take n (EvSemaSend :: EvPoolGet o :: dos ++ tail)) = 0%nat.
Proof.
  intros Hdos Htail Hn Hev. destruct n as [|[|n]]; simpl in *.
  - injection Hn as <-. discriminate.
  - done.
  - destruct (decide (n < length dos)%nat) as [Hlt|Hge].
    + rewrite take_app_le by lia.
      rewrite !count_ev_cons, !(count_ev_take_dos c cl) by done. done.
    + rewrite lookup_app_r in Hn by lia.
      by rewrite (Forall_lookup_1 _ _ _ _ Htail Hn) in Hev.
Qed.


(** ** What Put sends and returns *)

(** X7: A Put that returns a response has sent only SET prefix+key value, the
    last of them without error; the response is the empty PutResp. *)
Theorem Put_success_response (addr : string) (opts : Opts) (c : Client)
    (st : state) (i : nat) (t : thread) (key val : string) (r : resp) :
  NewClient addr opts = Some c →
  reachable c st → threads st !! i = Some t →
  req t = CallPut {| PutReq_Kv := {| Key := key; Value := val |} |} →
  at_pc t = Returned (Some r, None) →
  r = RespPut ∧
  ∃ dos rep,
    log t = EvSemaSend :: EvPoolGet None ::
              dos ++ [EvDo "SET" [String.append (Prefix opts) key; val]
                        rep None; EvSemaRecv; EvConnClose] ∧
    Forall (λ ev, ∃ rep' err',
              ev = EvDo "SET" [String.append (Prefix opts) key; val]
                     rep' err') dos.
Proof.
  intros Hnew Hr Hi Hreq Hpc. apply NewClient_cap in Hnew as (_ & _ & Hpre).
  pose proof (reachable_thread_ok c st i t Hr Hi) as Hok.
  unfold thread_ok in Hok. rewrite Hpc, Hreq in Hok.
  destruct Hok as [[_ [ce Hres]] | [(e & _ & Hres) | (dos & Hlog & Hdos & Hres)]];
    try discriminate.
  destruct Hres as [(e & Hres & _) | (dos' & rep & derr & v0 & v1 & -> & Hat & Hres)];
    [discriminate|].
  simpl in Hat, Hres, Hlog, Hdos. unfold Put_attempt in Hat.
  rewrite Hpre in *. injection Hat as _ He.
  destruct derr as [e|]; [by apply retryErr_not_nil in He|].
  injection Hres as ->. split; [done|].
  apply Forall_app in Hdos as [Hdos _].
  exists dos', rep.
  split; [rewrite Hlog; do 2 f_equal; by rewrite <- app_assoc|].
  eapply Forall_impl; [exact Hdos|].
  intros ev (rep' & err' & ->). exists rep', err'. simpl. by rewrite Hpre.
Qed.

(** ** Where a returned error comes from *)

Lemma last_do_snoc_do (l : list event) (cmd : string) (args : list string)
    (rep : reply) (err : option errval) :
  last_do (l ++ [EvDo cmd args rep err]) = Some (rep, err).
Proof. induction l as [|ev l IH]; simpl; [done | by rewrite IH]. Qed.

Lemma last_do_snoc_other (l : list event) (ev : event) :
  (∀ cmd args rep err, ev ≠ EvDo cmd args rep err) →
  last_do (l ++ [ev]) = last_do l.
Proof.
  intros Hev. induction l as [|ev' l IH]; simpl.
  - destruct ev; try done. by destruct (Hev cmd args rep err).
  - by rewrite IH.
Qed.

Lemma attempt_result (cl : call) (v0 : string) (rep : reply)
    (err : option errval) :
  (attempt cl v0 rep err).2 = retryErr (backend_error cl rep err) ∧
  ∀ r, finish cl (attempt cl v0 rep err).1 r
       = finish cl (attempt cl "" rep err).1 r.
Proof.
  destruct cl; simpl; unfold Get_attempt, Put_attempt.
  - by destruct (redis_Bytes rep err).
  - done.
Qed.

Lemma Retry_return_same (r e : option error) :
  Retry_after_attempt r = RetryReturn e →
  e = r ∧ classify_opt r ≠ Some ClsRetriable.
Proof.
  destruct r as [[| |]|]; simpl; intros [= <-]; split; try done.
  by destruct c.
Qed.

Lemma finish_error_opt (cl : call) (v0 : string) (x : errval) :
  finish cl v0 (retryErr (Some x)) = (None, retryErr (Some x)).
Proof.
  destruct (retryErr (Some x)) as [e|] eqn:He; [apply finish_error|].
  by apply retryErr_not_nil in He.
Qed.

(** Every step keeps track of where the result comes from. *)
Lemma thread_step_src (c : Client) (inp : input) (t t' : thread)
    (op : sema_op) :
  thread_ok c t → thread_src t → thread_step c inp t = Some (t', op) →
  thread_src t'.
Proof.
  unfold thread_src, result_source. unfold_step. intros Hok Hsrc Hstep.
  destruct inp as [ce| | |[e|]|rep err| |].
  - (* the context becomes done: it was not the source of a result *)
    destruct (ctx t) eqn:Hctx; [discriminate|]. injection Hstep as <- <-.
    simpl. destruct (at_pc t); try done.
    + destruct Hsrc as [(ce' & ? & _) | Hsrc]; [done | by right].
    + destruct Hsrc as [(ce' & ? & _) | Hsrc]; [done | by right].
    + destruct Hsrc as [Hsrc | [(ce' & ? & _) | Hsrc]]; [by left | done |].
      right. by right.
  - destruct (at_pc t); try discriminate. by injection Hstep as <- <-.
  - destruct (at_pc t) eqn:Hpc; try discriminate.
    destruct (ctx t); [|discriminate]. injection Hstep as <- <-. simpl.
    left. unfold thread_ok in Hok. rewrite Hpc in Hok. by rewrite Hok.
  - destruct (at_pc t); try discriminate. by injection Hstep as <- <-.
  - destruct (at_pc t); try discriminate. by injection Hstep as <- <-.
  - (* an attempt: the result, if there is one, is its own *)
    destruct (at_pc t); try discriminate.
    destruct (command c (req t)) as [cmd args].
    destruct (attempt_result (req t) (v t) rep err) as [Hr2 Hfin].
    destruct (attempt (req t) (v t) rep err) as [v1 r] eqn:Hat.
    simpl in Hr2, Hfin. injection Hstep as <- <-. simpl.
    destruct (Retry_after_attempt r) as [e|] eqn:Hret; [|done].
    apply Retry_return_same in Hret as [-> Hcls]. right.
    exists rep, err. rewrite last_do_snoc_do, <- Hr2. by rewrite Hfin.
  - (* the backoff ends *)
    destruct (at_pc t); try discriminate.
    destruct (ctx t) as [ce|] eqn:Hctx; simpl in Hstep;
      injection Hstep as <- <-; simpl; [|done].
    left. exists ce. split; [done|]. apply finish_error.
  - (* the next statement *)
    destruct (at_pc t) as [| |e| | |res|res|res] eqn:Hpc; try discriminate;
      injection Hstep as <- <-; simpl.
    + left. unfold thread_ok in Hok. rewrite Hpc in Hok. by rewrite Hok.
    + by rewrite last_do_snoc_other.
    + right. by rewrite last_do_snoc_other.
Qed.

Lemma exec_src (c : Client) (st st' : state) (a : action) :
  inv c st → Forall thread_src (threads st) → exec c st a = Some st' →
  Forall thread_src (threads st').
Proof.
  intros Hinv Hsrc Hex. destruct a as [cl | i inp | i j].
  - injection Hex as <-. simpl. apply Forall_app. split; [done|].
    by apply Forall_singleton.
  - unfold exec in Hex.
    destruct (threads st !! i) as [t|] eqn:Hi; [|discriminate].
    destruct (thread_step c inp t) as [[t' op]|] eqn:Hstep; [|discriminate].
    assert (Ht' : thread_src t').
    { eapply thread_step_src; [| |exact Hstep].
      - destruct Hinv as [Hts _]. by eapply Forall_lookup_1.
      - by eapply (Forall_lookup_1 thread_src). }
    destruct op.
    + injection Hex as <-. by apply Forall_insert.
    + destruct (_ <? _); [|discriminate]. injection Hex as <-.
      by apply Forall_insert.
    + destruct (sema_len st); [discriminate|]. injection Hex as <-.
      by apply Forall_insert.
  - by rewrite no_handoff in Hex.
Qed.

Lemma reachable_src (c : Client) (st : state) (i : nat) (t : thread) :
  reachable c st → threads st !! i = Some t → thread_src t.
Proof.
  intros [l Hl] Hi. eapply (Forall_lookup_1 thread_src); [|exact Hi].
  assert (Hgen : ∀ l st0, inv c st0 → Forall thread_src (threads st0) →
            run c st0 l = Some st → Forall thread_src (threads st)).
  { clear. induction l as [|a l IH]; intros st0 Hinv Hsrc Hrun; simpl in Hrun.
    - by injection Hrun as <-.
    - destruct (exec c st0 a) as [st1|] eqn:Hex; [|discriminate].
      eapply (IH st1); [by eapply exec_inv | by eapply exec_src | done]. }
  eapply Hgen; [apply init_inv | constructor | exact Hl].
Qed.

(** X8: The error of a call that leased a connection is the error of its
    context, or comes from its last conn.Do: the status NotFound with
    the message of a backend error that matches redis.ErrNil, or the
    backend error itself, the same value. *)
Theorem returned_error_source (c : Client) (st : state) (i : nat)
    (t : thread) (r : option resp) (e : error) :
  reachable c st → threads st !! i = Some t →
  at_pc t = Returned (r, Some e) →
  count_ev is_lease (log t) = 1%nat →
  (∃ ce, ctx t = Some ce ∧ e = Plain (ctx_Err ce)) ∨
  (∃ rep err x,
      last_do (log t) = Some (rep, err) ∧
      backend_error (req t) rep err = Some x ∧
      ((errors_Is_ErrNil x = true ∧ e = StatusError NotFound (Error x)) ∨
       (errors_Is_ErrNil x = false ∧ e = Plain x))).
Proof.
  intros Hr Hi Hpc Hlease. pose proof (reachable_src c st i t Hr Hi) as Hsrc.
  unfold thread_src in Hsrc. rewrite Hpc in Hsrc.
  destruct Hsrc as [H0 | [(ce & Hctx & Hres) | (rep & err & Hlast & Hcls & Hres)]].
  - rewrite H0 in Hlease. discriminate.
  - left. exists ce. split; [done|]. by injection Hres as _ ->.
  - right. exists rep, err.
    destruct (backend_error (req t) rep err) as [x|] eqn:Hbe.
    + exists x. split; [done|]. split; [done|].
      rewrite finish_error_opt in Hres.
      revert Hcls Hres. unfold retryErr.
      destruct (errors_Is_ErrNil x).
      * intros _ [= _ ->]. by left.
      * right. split; [done|].
        destruct (Temporary x) as [[]|]; simpl in *; try done;
          (destruct (dyn_of x); try (by injection Hres as _ ->);
           destruct (isConnError _); simpl in *; try done;
           by injection Hres as _ ->).
    + simpl in Hres. unfold finish in Hres.
      destruct (req t); discriminate.
Qed.

(** ** The parser: what it reads, and which requests it accepts *)

Lemma append_assoc (a b c : string) :
  String.append (String.append a b) c = String.append a (String.append b c).
Proof.
  induction a as [|ch a IH]; [reflexivity|].
  change (String ch (String.append (String.append a b) c)
          = String ch (String.append a (String.append b c))).
  by rewrite IH.
Qed.

Lemma concat_cons2 (sep a b : string) (l : list string) :
  String.concat sep (a :: b :: l)
  = String.append a (String.append sep (String.concat sep (b :: l))).
Proof. reflexivity. Qed.

Lemma concat_LF_snoc (ls : list string) (x : string) :
  ls ≠ [] →
  String.concat LF (ls ++ [x])
  = String.append (String.append (String.concat LF ls) LF) x.
Proof.
  induction ls as [|a ls IH]; [done|]. intros _.
  destruct ls as [|b ls].
  - change ([a] ++ [x]) with [a; x]. rewrite concat_cons2.
    change (String.concat LF [x]) with x.
    change (String.concat LF [a]) with a. by rewrite append_assoc.
  - specialize (IH ltac:(done)).
    change ((a :: b :: ls) ++ [x]) with (a :: b :: (ls ++ [x])).
    change ((b :: ls) ++ [x]) with (b :: (ls ++ [x])) in IH.
    rewrite (concat_cons2 LF a b (ls ++ [x])), (concat_cons2 LF a b ls), IH.
    by rewrite !append_assoc.
Qed.

Section ParserReads.
Context {R : Type} `{LineReader R}.

Lemma reads_snoc (r r1 r2 : R) (ls : list string) (l : string) (b : bool) :
  reads r ls r1 → ReadLine r1 = ((l, b, None), r2) → reads r (ls ++ [l]) r2.
Proof.
  induction 1 as [r | r l0 b0 r0 ls r' Hrd _ IH]; intros Hl; simpl.
  - eapply reads_cons; [exact Hl | constructor].
  - eapply reads_cons; [exact Hrd | by apply IH].
Qed.

(** What the loop returns is what it has read: the lines it got from
    ReadLine, joined by LF after the lines before them; it stops after
    those lines, or at the read that failed.  When it succeeds it has
    read between [k] and [2 * k] lines. *)
Lemma readElements_reads (k : nat) (r0 r : R) (pre : list string) :
  pre ≠ [] → reads r0 pre r →
  let res := readElements k (String.concat LF pre) r in
  ∃ ls rl,
    reads r0 (pre ++ ls) rl ∧
    res.1.1 = String.concat LF (pre ++ ls) ∧
    (length ls ≤ 2 * k)%nat ∧
    match res.1.2 with
    | None => res.2 = rl ∧ (k ≤ length ls)%nat
    | Some (ReadError e) => ∃ l b, ReadLine rl = ((l, b, Some e), res.2)
    | Some _ => res.2 = rl
    end.
Proof.
  revert r pre. induction k as [|k IH]; intros r pre Hpre Hreads; simpl.
  - exists [], r. rewrite app_nil_r.
    split; [done|]. split; [done|]. split; [simpl; lia|]. split; [done | simpl; lia].
  - destruct (ReadLine r) as [[[nline b] [e|]] r1] eqn:Hr1; simpl.
    { exists [], r. rewrite app_nil_r.
      split; [done|]. split; [done|]. split; [simpl; lia | eauto]. }
    pose proof (reads_snoc _ _ _ _ _ _ Hreads Hr1) as Hreads1.
    assert (Hpre1 : pre ++ [nline] ≠ []) by (by destruct pre).
    rewrite <- (concat_LF_snoc pre nline Hpre).
    destruct (String.prefix "$" nline) eqn:Hp; simpl.
    + destruct (Atoi (drop1 nline)) as [sz|ne] eqn:Hsz; simpl.
      * destruct (ReadLine r1) as [[[nline2 b2] [e|]] r2] eqn:Hr2; simpl.
        { exists [nline], r1.
          split; [done|]. split; [done|]. split; [simpl; lia | eauto]. }
        pose proof (reads_snoc _ _ _ _ _ _ Hreads1 Hr2) as Hreads2.
        rewrite <- (concat_LF_snoc (pre ++ [nline]) nline2 Hpre1).
        destruct (sz =? len nline2) eqn:Hlen; simpl.
        -- specialize (IH r2 ((pre ++ [nline]) ++ [nline2])
                         ltac:(by destruct pre) Hreads2).
           cbv zeta in IH.
           destruct (readElements k _ r2) as [[line' err'] r'].
           destruct IH as (ls & rl & Hrd & Hline & Hle & Hres).
           exists (nline :: nline2 :: ls), rl.
           rewrite <- !app_assoc in Hrd, Hline. simpl in *.
           split; [done|]. split; [done|]. split; [lia|].
           destruct err' as [[]|]; try done.
           destruct Hres as [-> Hk]. split; [done | lia].
        -- exists [nline; nline2], r2. rewrite <- app_assoc in Hreads2.
           rewrite <- app_assoc.
           split; [done|]. split; [done|]. split; [simpl; lia | done].
      * exists [nline], r1.
        split; [done|]. split; [done|]. split; [simpl; lia | done].
    + specialize (IH r1 (pre ++ [nline]) Hpre1 Hreads1). cbv zeta in IH.
      destruct (readElements k _ r1) as [[line' err'] r'].
      destruct IH as (ls & rl & Hrd & Hline & Hle & Hres).
      exists (nline :: ls), rl.
      rewrite <- !app_assoc in Hrd, Hline. simpl in *.
      split; [done|]. split; [done|]. split; [lia|].
      destruct err' as [[]|]; try done.
      destruct Hres as [-> Hk]. split; [done | lia].
Qed.

(** X9: readRequest returns what it has read, on every path: the text it
    returns is the lines it got from ReadLine joined by LF, also when it
    returns an error, and the reader is left right after those lines, or
    after the read that failed. *)
Theorem readRequest_returns_what_it_read (r : R) :
  ∃ ls rl,
    reads r ls rl ∧
    (readRequest r).1.1 = String.concat LF ls ∧
    match (readRequest r).1.2 with
    | Some (ReadError e) =>
        ∃ l b, ReadLine rl = ((l, b, Some e), (readRequest r).2)
    | _ => (readRequest r).2 = rl
    end.
Proof.
  unfold readRequest.
  destruct (ReadLine r) as [[[nline b] [e|]] r1] eqn:Hr1; simpl.
  { exists [], r. split; [constructor|]. split; [done|]. eauto. }
  assert (Hreads : reads r [nline] r1).
  { eapply reads_cons; [exact Hr1 | constructor]. }
  destruct (String.prefix "*" nline) eqn:Hp; simpl.
  - destruct (Atoi (drop1 nline)) as [n|ne] eqn:Hn; simpl.
    + destruct (readElements_reads (Z.to_nat n) r r1 [nline] ltac:(done) Hreads)
        as (ls & rl & Hrd & Hline & _ & Hres). simpl in Hline, Hres.
      exists ([nline] ++ ls), rl. split; [done|]. split; [done|].
      destruct (readElements _ _ r1).1.2 as [[]|]; try done. by destruct Hres.
    + by exists [nline], r1.
  - by exists [nline], r1.
Qed.

Lemma readRequest_success_reads (r : R) (line : string) (r' : R) :
  readRequest r = ((line, None), r') →
  ∃ nline ls,
    reads r (nline :: ls) r' ∧
    (String.prefix "*" nline = false → ls = []) ∧
    (∀ n, String.prefix "*" nline = true → Atoi (drop1 nline) = inl n →
       (Z.to_nat n ≤ length ls ≤ 2 * Z.to_nat n)%nat).
Proof.
  unfold readRequest.
  destruct (ReadLine r) as [[[nline b] [e|]] r1] eqn:Hr1; [discriminate|].
  assert (Hreads : reads r [nline] r1).
  { eapply reads_cons; [exact Hr1 | constructor]. }
  destruct (String.prefix "*" nline) eqn:Hp; simpl.
  - destruct (Atoi (drop1 nline)) as [n|ne] eqn:Hn; [|discriminate].
    intros Hrd.
    destruct (readElements_reads (Z.to_nat n) r r1 [nline] ltac:(done) Hreads)
      as (ls & rl & Hrds & _ & Hle & Hres). simpl in Hres, Hrds.
    rewrite Hrd in Hres. simpl in Hres. destruct Hres as [<- Hk].
    exists nline, ls. split; [done|]. split; [congruence|].
    intros n' _ Hn'. rewrite Hn in Hn'. injection Hn' as <-. lia.
  - intros [= <- <-]. exists nline, []. split; [done|]. split; [done|].
    congruence.
Qed.
(** X10: A request that is accepted has taken its header line and, for an
    array "*<n>", at least [n] and at most [2 * n] lines more (none for
    [n] ≤ 0); a request that is not an array is one line. *)
Theorem readRequest_line_count (r : R) (line : string) (r' : R) :
  readRequest r = ((line, None), r') →
  ∃ nline ls,
    reads r (nline :: ls) r' ∧
    (String.prefix "*" nline = false → ls = []) ∧
    (∀ n, String.prefix "*" nline = true → Atoi (drop1 nline) = inl n →
       (Z.to_nat n ≤ length ls ≤ 2 * Z.to_nat n)%nat).
Proof. apply readRequest_success_reads. Qed.
End ParserReads.

(** ** The parser accepts the commands of a client *)

Lemma of_uint_acc_ge (d : Decimal.uint) (n : nat) :
  (n ≤ Nat.of_uint_acc d n)%nat.
Proof.
  revert n. induction d as [|d IH|d IH|d IH|d IH|d IH|d IH|d IH|d IH|d IH|d IH];
    intros n; cbn [Nat.of_uint_acc]; [done|..];
    (etrans; [|apply IH]); rewrite Nat.tail_mul_spec; lia.
Qed.

Ltac eval_digit :=
  match goal with
  | |- context [digit_of ?ch] =>
      let v := eval vm_compute in (digit_of ch) in
      change (digit_of ch) with v
  end.

Lemma parse_uint_decimal (d : Decimal.uint) (n : nat) :
  Z.of_nat (Nat.of_uint_acc d n) < 2 ^ 63 →
  parse_uint (NilEmpty.string_of_uint d) (Z.of_nat n)
  = inl (Z.of_nat (Nat.of_uint_acc d n)).
Proof.
  revert n. induction d as [|d IH|d IH|d IH|d IH|d IH|d IH|d IH|d IH|d IH|d IH];
    intros n Hfin; [done|..];
    cbn [NilEmpty.string_of_uint parse_uint Nat.of_uint_acc] in *;
    eval_digit; cbv beta iota; rewrite Nat.tail_mul_spec in *;
    match goal with
    | H : Z.of_nat (Nat.of_uint_acc d ?n1) < _ |- _ =>
        pose proof (of_uint_acc_ge d n1) as Hge; specialize (IH n1 H)
    end;
    change (2 ^ 63) with 9223372036854775808 in *;
    change (2 ^ 64) with 18446744073709551616;
    change (18446744073709551616 `div` 10 + 1) with 1844674407370955162;
    (destruct (Z.leb_spec 1844674407370955162 (Z.of_nat n)); [lia|]);
    match goal with
    | |- context [?a <? ?b] => destruct (Z.ltb_spec a b); [lia|]
    end;
    rewrite <- IH; f_equal; lia.
Qed.

Lemma Atoi_digits (ch : ascii) (s : string) (k : Z) :
  digit_of ch = Some k →
  Atoi (String ch s) =
    match parse_uint (String ch s) 0 with
    | inr e => inr e
    | inl un => if 2 ^ 63 <=? un then inr ErrRange else inl un
    end.
Proof.
  intros Hk. unfold Atoi.
  destruct (Ascii.eqb_spec ch "-") as [-> | _]; [discriminate|].
  destruct (Ascii.eqb_spec ch "+") as [-> | _]; [discriminate|].
  cbv beta iota zeta. simpl orb. simpl negb. cbv iota.
  by destruct (parse_uint (String ch s) 0).
Qed.

Lemma string_of_uint_digit (d : Decimal.uint) :
  d ≠ Decimal.Nil →
  ∃ ch s k, NilEmpty.string_of_uint d = String ch s ∧ digit_of ch = Some k.
Proof. destruct d; [done|..]; intros _; simpl; by eexists _, _, _. Qed.

(** strconv.Atoi reads back what strconv.Itoa writes. *)
Lemma Atoi_itoa (n : nat) :
  Z.of_nat n < 2 ^ 63 → Atoi (itoa n) = inl (Z.of_nat n).
Proof.
  intros Hn. unfold itoa.
  pose proof (DecimalNat.Unsigned.of_to n) as Hof. unfold Nat.of_uint in Hof.
  assert (Hd : Nat.to_uint n ≠ Decimal.Nil).
  { intros Hnil. rewrite Hnil in Hof. simpl in Hof. subst n. discriminate. }
  destruct (string_of_uint_digit _ Hd) as (ch & s & k & Hs & Hk).
  pose proof (parse_uint_decimal (Nat.to_uint n) 0) as Hp.
  rewrite Hof in Hp. specialize (Hp Hn). rewrite Hs in *.
  rewrite (Atoi_digits ch s k Hk). change (Z.of_nat 0) with 0 in Hp.
  rewrite Hp. destruct (Z.leb_spec (2 ^ 63) (Z.of_nat n)); [lia | done].
Qed.

Lemma prefix_head (ch : ascii) (s : string) :
  String.prefix (String ch EmptyString) (String ch s) = true.
Proof.
  simpl. destruct (ascii_dec ch ch); [by destruct s | done].
Qed.

Section ParserCommands.
Context {R : Type} `{LineReader R}.

Lemma readElements_bulks (args : list string) (pre : list string) (r r' : R) :
  pre ≠ [] →
  Forall (λ a, Z.of_nat (String.length a) < 2 ^ 63) args →
  reads r (args ≫= bulk_lines) r' →
  readElements (length args) (String.concat LF pre) r
  = ((String.concat LF (pre ++ (args ≫= bulk_lines)), None), r').
Proof.
  intros Hpre Hargs. revert pre r Hpre.
  induction Hargs as [|a args Ha _ IH]; intros pre r Hpre Hr.
  - inversion Hr; subst. simpl. by rewrite app_nil_r.
  - change ((a :: args) ≫= bulk_lines)
      with (String "$" (itoa (String.length a)) :: a :: (args ≫= bulk_lines))
      in *.
    inversion Hr as [|? ? b r1 ? ? Hrd1 Hr1]; subst.
    inversion Hr1 as [|? ? b2 r2 ? ? Hrd2 Hr2]; subst.
    change (length (a :: args)) with (S (length args)).
    rewrite readElements_S, Hrd1. cbv beta iota zeta.
    rewrite (prefix_head "$"). cbv beta iota.
    change (drop1 (String "$" (itoa (String.length a))))
      with (itoa (String.length a)).
    rewrite (Atoi_itoa _ Ha), Hrd2. cbv beta iota zeta.
    unfold len. rewrite Z.eqb_refl. cbv beta iota.
    rewrite <- (concat_LF_snoc pre _ Hpre).
    rewrite <- (concat_LF_snoc (pre ++ [_]) a) by (by destruct pre).
    rewrite (IH _ r2) by (done || by destruct pre).
    by rewrite <- !app_assoc.
Qed.

End ParserCommands.

(** ** handle on a connection that ends *)

Lemma reads_lines (r r' : list string) (ls : list string) :
  reads r ls r' → r = ls ++ r'.
Proof.
  induction 1 as [r | r l b r1 ls r' Hrd _ IH]; [done|].
  destruct r as [|l0 r0]; [discriminate|].
  injection Hrd as -> _ ->. simpl. by rewrite IH.
Qed.

Lemma handle_more_fuel {R : Type} `{LineReader R} (fuel fuel' : nat) (r : R)
    (written out : list string) :
  handle fuel r written = Some out → (fuel ≤ fuel')%nat →
  handle fuel' r written = Some out.
Proof.
  revert fuel' r written. induction fuel as [|fuel IH];
    intros fuel' r written Hh Hle; [discriminate|].
  destruct fuel' as [|fuel']; [lia|]. simpl in *.
  destruct (readRequest r) as [[line [e|]] r1]; [done|].
  apply IH; [done | lia].
Qed.


(** ** pathFromToolchainSpec *)

Section NsjailProofs.
Context (cfp_Dir : string → string).
Context (MarshalTextString : NsJailConfig → string).

Lemma dirs_of_keys_sorted (ks : list string) :
  StronglySorted String.le (dirs_of_keys ks).
Proof. apply StronglySorted_merge_sort; apply _. Qed.

Lemma dirs_of_keys_perm (ks : list string) :
  dirs_of_keys ks ≡ₚ filter (λ k, ¬ (k = "" ∨ k = ".")) ks.
Proof. apply merge_sort_Permutation. Qed.

Lemma dirs_of_keys_order (ks ks' : list string) :
  ks ≡ₚ ks' → dirs_of_keys ks = dirs_of_keys ks'.
Proof.
  intros Hp. apply (StronglySorted_unique String.le);
    [apply dirs_of_keys_sorted | apply dirs_of_keys_sorted |].
  by rewrite !dirs_of_keys_perm, Hp.
Qed.

Lemma path_of_keys_same_dirs (ts ts' : list (option ToolchainSpec))
    (ks : list string) :
  (∀ d, d ∈ (λ e, cfp_Dir (GetPath e)) <$> ts ↔
        d ∈ (λ e, cfp_Dir (GetPath e)) <$> ts') →
  ks ≡ₚ base.elements (toolchain_dirs cfp_Dir ts) →
  dirs_of_keys ks = dirs_of_keys (base.elements (toolchain_dirs cfp_Dir ts')).
Proof.
  intros Hsame Hks. apply dirs_of_keys_order. rewrite Hks.
  assert (Heq : toolchain_dirs cfp_Dir ts = toolchain_dirs cfp_Dir ts').
  { unfold toolchain_dirs. apply set_eq. intros d.
    rewrite !elem_of_list_to_set. apply Hsame. }
  by rewrite Heq.
Qed.

(** X13: The PATH does not depend on the order in which range goes through
    the map, nor on the order of the toolchain specs or on how often a
    directory occurs among them: it is a function of the set of their
    directories. *)
Theorem pathFromToolchainSpec_order (ts ts' : list (option ToolchainSpec))
    (ks : list string) :
  (∀ d, d ∈ (λ e, cfp_Dir (GetPath e)) <$> ts ↔
        d ∈ (λ e, cfp_Dir (GetPath e)) <$> ts') →
  ks ≡ₚ base.elements (toolchain_dirs cfp_Dir ts) →
  path_of_keys ks = pathFromToolchainSpec cfp_Dir ts'.
Proof.
  intros Hsame Hks. unfold pathFromToolchainSpec, path_of_keys.
  f_equal. by apply (path_of_keys_same_dirs ts ts').
Qed.

(** X14: The directories joined into the PATH are the directories of the
    toolchain paths other than "" and ".", each once, in strictly
    increasing order. *)
Theorem pathFromToolchainSpec_dirs (ts : list (option ToolchainSpec)) :
  let r := dirs_of_keys (base.elements (toolchain_dirs cfp_Dir ts)) in
  pathFromToolchainSpec cfp_Dir ts = strings_Join r ":" ∧
  StronglySorted String.le r ∧ NoDup r ∧
  ∀ d, d ∈ r ↔
       d ≠ "" ∧ d ≠ "." ∧ ∃ e, e ∈ ts ∧ d = cfp_Dir (GetPath e).
Proof.
  intros r. split; [done|]. split; [apply dirs_of_keys_sorted|].
  unfold r. split.
  - rewrite dirs_of_keys_perm. apply NoDup_filter, NoDup_elements.
  - intros d. rewrite dirs_of_keys_perm, list_elem_of_filter, elem_of_elements.
    unfold toolchain_dirs. rewrite elem_of_list_to_set, list_elem_of_fmap.
    split.
    + intros [Hd (e & -> & He)]. split; [tauto|]. split; [tauto|]. eauto.
    + intros (H1 & H2 & e & He & ->). split; [tauto | eauto].
Qed.

End NsjailProofs.

(** ** FromRemoteBackend *)

Section BackendProofs.
Context {Conn AuthT : Type}.
Context (DialContext : string → Conn + errval).
Context (ReadFile : string → string + errval).
Context (filepath_Join : string → string → string).
Context (TrimSpace : string → string).

(** X16: The returned func closes the connection exactly when one was opened:
    also when reading the api key fails after the dial, and not when the
    dial itself failed.  With an error the GRPC is the zero value; without
    one its four clients are on the one connection that the func closes.
    Without an api key name no file is read. *)
Theorem FromRemoteBackend_cleanup (cfg : RemoteBackend)
    (opt : BackendOption AuthT) (be : GRPC Conn AuthT)
    (cleanup : option Conn) (err : option errval) :
  FromRemoteBackend DialContext ReadFile filepath_Join TrimSpace cfg opt
    = (be, cleanup, err) →
  (cleanup = None ↔ ∃ e, DialContext (Address cfg) = inr e) ∧
  (∀ conn, DialContext (Address cfg) = inl conn → cleanup = Some conn) ∧
  (is_Some err → be = GRPC_zero) ∧
  (err = None →
     cleanup ≠ None ∧
     ExecServer_Client be = cleanup ∧ FileServer_Client be = cleanup ∧
     ExeclogServer_Client be = cleanup ∧ ByteStreamClient be = cleanup ∧
     GRPC_Auth be = Auth opt) ∧
  (ApiKeyName cfg = "" →
     (err = None ↔ ∃ conn, DialContext (Address cfg) = inl conn) ∧
     (err = None → APIKey be = TrimSpace "")).
Proof.
  unfold FromRemoteBackend.
  destruct (DialContext (Address cfg)) as [conn|e] eqn:Hdial.
  - destruct (String.eqb_spec (ApiKeyName cfg) "") as [Hname|Hname].
    + intros [= <- <- <-]. simpl.
      split; [split; [done | by intros [? ?]]|].
      split; [by intros ? [= <-]|]. split; [by intros [? ?]|].
      split; [done|]. intros _. split; [|done]. split; [eauto | done].
    + destruct (ReadFile _) as [key|e].
      * intros [= <- <- <-]. simpl.
        split; [split; [done | by intros [? ?]]|].
        split; [by intros ? [= <-]|]. split; [by intros [? ?]|].
        split; [done|]. done.
      * intros [= <- <- <-].
        split; [split; [done | by intros [? ?]]|].
        split; [by intros ? [= <-]|]. split; [done|].
        split; [done|]. done.
  - intros [= <- <- <-].
    split; [split; [eauto | done]|]. split; [done|]. split; [done|].
    split; [done|]. intros _. split; [|done]. split; [done | by intros [? ?]].
Qed.
End BackendProofs.

(** ** apiErrorValue *)

Section ApiErrorProofs.
Context {ExecError : Type} `{EqDecision ExecError}.
Context (ExecResp_OK : ExecError) (ExecError_String : ExecError → string).

(** X17: With the names of the enumeration as they are (OK is called "OK" and
    no other value is), the value is "OK" exactly for a response with
    the code OK, no error message and no missing input, and that is
    exactly when nothing is logged; a code other than OK decides the
    value, whatever the message and the missing inputs are. *)
Theorem apiErrorValue_OK (resp : ExecResp ExecError) :
  (∀ e, ExecError_String e = "OK" → e = ExecResp_OK) →
  let res := apiErrorValue ExecResp_OK ExecError_String resp in
  (res.1 = "OK" ↔
     ExecResp_Error resp = ExecResp_OK ∧ ErrorMessage resp = "" ∧
     MissingInput resp = []) ∧
  (res.2 = None ↔ res.1 = "OK") ∧
  (ExecResp_Error resp ≠ ExecResp_OK →
     res.1 = ExecError_String (ExecResp_Error resp)).
Proof.
  intros Hnames. unfold apiErrorValue.
  destruct (decide (ExecResp_Error resp ≠ ExecResp_OK)) as [Hne|Heq]; simpl.
  - split; [split; [by intros ?%Hnames | by intros [? _]]|].
    split; [|done]. split; [done | by intros ?%Hnames].
  - apply dec_stable in Heq.
    destruct (ErrorMessage resp) as [|ch msg] eqn:Hmsg; simpl.
    + destruct (MissingInput resp) as [|m ms] eqn:Hmiss; simpl.
      * by repeat split.
      * split; [split; [done | by intros (_ & _ & ?)]|]. by repeat split.
    + split; [split; [done | by intros (_ & ? & _)]|]. by repeat split.
Qed.
End ApiErrorProofs.

(** ** DialContext *)

Lemma last_filter_app (p : DialOption → bool) (l1 l2 : list DialOption)
    (o : DialOption) :
  last (filter (λ x, p x = true) l2) = Some o →
  last (filter (λ x, p x = true) (l1 ++ l2)) = Some o.
Proof.
  intros Hl. rewrite filter_app.
  destruct (filter (λ x, p x = true) l2) as [|y ys] eqn:Hf; [discriminate|].
  by rewrite last_app, Hl.
Qed.

(** X18: Whatever options the caller passes, the defaults come after them in
    what grpc.DialContext gets: the last keepalive parameters and the
    last stats handler are the default ones, the caller's options are
    all there in their order, and WithInsecure is among the options. *)
Theorem DialContext_defaults_last (opts : list DialOption) :
  last (filter (λ o, is_keepalive o = true) (DialContext_options opts))
    = Some (WithKeepaliveParams
        {| Time := 10000000000; Timeout := 5000000000; PermitWithoutStream := false |}) ∧
  last (filter (λ o, is_stats_handler o = true) (DialContext_options opts))
    = Some (WithStatsHandler "ocgrpc.ClientHandler") ∧
  take (length opts) (DialContext_options opts) = opts ∧
  WithInsecure ∈ DialContext_options opts.
Proof.
  unfold DialContext_options. split; [by apply last_filter_app|].
  split; [by apply last_filter_app|]. split.
  - by rewrite take_app_length.
  - apply elem_of_app. right. by left.
Qed.

(** ** The further properties on concrete inputs *)

Lemma zero_reachable : reachable zero_client zero_state.
Proof. by exists zero_run. Qed.

Lemma put_reachable : reachable demo_client put_state.
Proof. by exists put_run. Qed.

Lemma miss_reachable : reachable demo_client miss_state.
Proof. by exists miss_run. Qed.

Lemma zero_capacity_admits_nobody_witness :
  NewClient "localhost:6379" zero_opts = Some zero_client ∧
  MaxActiveConns zero_opts = 0 ∧
  reachable zero_client zero_state ∧
  threads zero_state !! 0%nat = Some zero_get ∧
  log zero_get = [] ∧ sema_len zero_state = 0%nat ∧
  (at_pc zero_get = AtSelect ∨
   ∃ ce, at_pc zero_get = Returned (None, Some (Plain (ctx_Err ce)))) ∧
  exec zero_client zero_state (Run 0 InSelectSend) = None.
Proof.
  split; [reflexivity|]. split; [reflexivity|].
  split; [exact zero_reachable|]. split; [reflexivity|].
  exact (zero_capacity_admits_nobody "localhost:6379" zero_opts zero_client
           zero_state 0 zero_get eq_refl eq_refl zero_reachable eq_refl).
Defined.


Lemma Put_success_response_witness :
  NewClient "localhost:6379" demo_opts = Some demo_client ∧
  reachable demo_client put_state ∧
  threads put_state !! 0%nat = Some put_done ∧
  req put_done = CallPut {| PutReq_Kv := {| Key := "k"; Value := "v" |} |} ∧
  at_pc put_done = Returned (Some RespPut, None) ∧
  ∃ dos rep,
    log put_done = EvSemaSend :: EvPoolGet None ::
      dos ++ [EvDo "SET" [String.append (Prefix demo_opts) "k"; "v"]
                rep None; EvSemaRecv; EvConnClose] ∧
    Forall (λ ev, ∃ rep' err',
              ev = EvDo "SET" [String.append (Prefix demo_opts) "k"; "v"]
                     rep' err') dos.
Proof.
  split; [reflexivity|]. split; [exact put_reachable|].
  split; [reflexivity|]. split; [reflexivity|]. split; [reflexivity|].
  exact (proj2 (Put_success_response "localhost:6379" demo_opts demo_client
           put_state 0 put_done "k" "v" RespPut eq_refl put_reachable
           eq_refl eq_refl eq_refl)).
Defined.

Lemma returned_error_source_witness :
  reachable demo_client miss_state ∧
  threads miss_state !! 0%nat = Some miss_get ∧
  at_pc miss_get =
    Returned (None, Some (StatusError NotFound "redigo: nil returned")) ∧
  count_ev is_lease (log miss_get) = 1%nat ∧
  ((∃ ce, ctx miss_get = Some ce ∧
          StatusError NotFound "redigo: nil returned" = Plain (ctx_Err ce)) ∨
   (∃ rep err x,
      last_do (log miss_get) = Some (rep, err) ∧
      backend_error (req miss_get) rep err = Some x ∧
      ((errors_Is_ErrNil x = true ∧
        StatusError NotFound "redigo: nil returned"
        = StatusError NotFound (Error x)) ∨
       (errors_Is_ErrNil x = false ∧
        StatusError NotFound "redigo: nil returned" = Plain x)))).
Proof.
  split; [exact miss_reachable|]. split; [reflexivity|].
  split; [reflexivity|]. split; [reflexivity|].
  exact (returned_error_source demo_client miss_state 0 miss_get None
           (StatusError NotFound "redigo: nil returned")
           miss_reachable eq_refl eq_refl eq_refl).
Defined.

Lemma readRequest_line_count_witness :
  readRequest get_request =
    ((String.concat LF get_request, None), []) ∧
  ∃ nline ls,
    reads get_request (nline :: ls) [] ∧
    (String.prefix "*" nline = false → ls = []) ∧
    (∀ n, String.prefix "*" nline = true → Atoi (drop1 nline) = inl n →
       (Z.to_nat n ≤ length ls ≤ 2 * Z.to_nat n)%nat).
Proof.
  split; [reflexivity|].
  exact (readRequest_line_count get_request (String.concat LF get_request) []
           eq_refl).
Defined.


Lemma clang_keys :
  ["/usr/lib"; "."; "/usr/bin"]
  ≡ₚ base.elements (toolchain_dirs usr_Dir clang_specs).
Proof.
  apply NoDup_Permutation.
  - repeat constructor; rewrite ?elem_of_cons, ?elem_of_nil; intuition congruence.
  - apply NoDup_elements.
  - intros d. rewrite elem_of_elements. unfold toolchain_dirs.
    rewrite elem_of_list_to_set. simpl.
    rewrite !elem_of_cons, !elem_of_nil. intuition.
Qed.

Lemma pathFromToolchainSpec_order_witness :
  (∀ d, d ∈ (λ e, usr_Dir (GetPath e)) <$> clang_specs ↔
        d ∈ (λ e, usr_Dir (GetPath e)) <$> reverse clang_specs) ∧
  path_of_keys ["/usr/lib"; "."; "/usr/bin"]
  = pathFromToolchainSpec usr_Dir (reverse clang_specs) ∧
  path_of_keys ["/usr/lib"; "."; "/usr/bin"] = "/usr/bin:/usr/lib".
Proof.
  assert (Hsame : ∀ d, d ∈ (λ e, usr_Dir (GetPath e)) <$> clang_specs ↔
                       d ∈ (λ e, usr_Dir (GetPath e)) <$> reverse clang_specs).
  { intros d. rewrite fmap_reverse. by rewrite elem_of_reverse. }
  split; [exact Hsame|]. split; [|reflexivity].
  exact (pathFromToolchainSpec_order usr_Dir clang_specs
           (reverse clang_specs) _ Hsame clang_keys).
Defined.


Lemma FromRemoteBackend_cleanup_witness :
  FromRemoteBackend dial_ok no_file join_slash keep rbe_backend rbe_option
    = (GRPC_zero, Some 7%nat, Some (ErrVal (OtherType false None)
         "open: no such file or directory" None)) ∧
  (∀ conn, dial_ok (Address rbe_backend) = inl conn →
           Some 7%nat = Some conn).
Proof.
  split; [reflexivity|].
  exact (proj1 (proj2 (FromRemoteBackend_cleanup dial_ok no_file join_slash
           keep rbe_backend rbe_option _ _ _ eq_refl))).
Defined.

Lemma apiErrorValue_OK_witness :
  (∀ e, Api_String e = "OK" → e = Api_OK) ∧
  (apiErrorValue Api_OK Api_String
     {| ExecResp_Error := Api_BAD_REQUEST; ErrorMessage := "";
        MissingInput := [] |}).1 = "BAD_REQUEST".
Proof.
  assert (Hnames : ∀ e, Api_String e = "OK" → e = Api_OK)
    by (by intros []).
  split; [exact Hnames|].
  apply (proj2 (proj2 (apiErrorValue_OK Api_OK Api_String
           {| ExecResp_Error := Api_BAD_REQUEST; ErrorMessage := "";
              MissingInput := [] |} Hnames))).
  discriminate.
Defined.
